(** * pypeln.process.api: a shallow embedding

    The stage builders of [src/pypeln/process/api.py] ([from_iterable],
    [to_stage], [map], [flat_map], [filter], [each], [concat], [run],
    [to_iterable]) and the per-item methods of the stage classes
    ([FromIterable.process], [Map.apply], [FlatMap.apply], [Filter.apply],
    [Each.apply], [Concat.apply]).

    Python objects live in a store: a stage is a reference into a heap of
    stage descriptors, so that aliasing and (non-)mutation can be stated.
    Exceptions are an error result; the builders run in a state-and-error
    monad over the heap, the per-item methods in the same monad over the
    stage's output queues. *)

From stdpp Require Import numbers list strings.

Set Default Proof Using "Type".

(** ** Python values *)

(** A stage object is a reference into the heap of descriptors. *)
Definition ref := nat.

(** The objects that reach the API: [None], booleans, integers, lists, other
    sequences (a tuple, a [range]), generators, stage objects and the
    sentinel [pypeln_utils.UNDEFINED]. A generator is given by the items it
    yields and the exception that ends it, if it does not end normally.

    Exceptions: [ValueError] keeps the message; for the f-string of
    [to_stage] the interpolated object is kept next to the template. *)
#[warnings="-register-all"] Inductive value :=
| VNone
| VBool (b : bool)
| VInt (n : Z)
| VList (l : list value)
| VSeq (l : list value)
| VGen (l : list value) (e : option exn)
| VStage (r : ref)
| VUndefined
with exn :=
| ValueError (msg : string) (obj : option value)
| TypeError
| AttributeError
| UserError (code : Z).

Inductive result (A : Type) :=
| Ok (a : A)
| Raise (e : exn).
Arguments Ok {A} a.
Arguments Raise {A} e.

(** Keyword arguments ([**kwargs]): the mapping returned by [on_start]. *)
Definition kwargs := list (string * value).

(** A user callable [f(x, **kwargs)]: it returns an object or raises. *)
Definition callable := value → kwargs → result value.

(** Python truthiness, as used by [if self.f(x, **kwargs)]. *)
Definition truthy (v : value) : bool :=
  match v with
  | VNone => false
  | VBool b => b
  | VInt n => negb (n =? 0)%Z
  | VList l | VSeq l => match l with [] => false | _ => true end
  | VGen _ _ => true
  | VStage _ => true
  | VUndefined => true
  end.

(** [isinstance(obj, Stage)] *)
Definition isinstance_Stage (obj : value) : bool :=
  match obj with VStage _ => true | _ => false end.

(** [isinstance(obj, list)] *)
Definition isinstance_list (obj : value) : bool :=
  match obj with VList _ => true | _ => false end.

(** [len(obj)], for the objects that have a length. *)
Definition len (obj : value) : option nat :=
  match obj with VList l | VSeq l => Some (length l) | _ => None end.

(** [hasattr(obj, "__iter__")]: lists, sequences, generators and stages are
    iterable. *)
Definition hasattr_iter (obj : value) : bool :=
  match obj with
  | VList _ | VSeq _ | VGen _ _ | VStage _ => true
  | _ => false
  end.

(** Modelled from the spec: [pypeln_utils.UNDEFINED] and
    [pypeln_utils.is_undefined] (pypeln/utils.py) are not part of api.py; the
    sentinel marks an omitted stage argument and is recognised by identity. *)
Definition is_undefined (obj : value) : bool :=
  match obj with VUndefined => true | _ => false end.

(** ** The state-and-error monad *)

Definition M (S A : Type) : Type := S → result A * S.

Global Instance M_ret {S} : MRet (M S) := λ A a s, (Ok a, s).

Global Instance M_bind {S} : MBind (M S) := λ A B k m s,
  match m s with
  | (Ok a, s') => k a s'
  | (Raise e, s') => (Raise e, s')
  end.

Definition raise {S A} (e : exn) : M S A := λ s, (Raise e, s).

(** Lift the outcome of a call that does not touch the state. *)
Definition lift {S A} (r : result A) : M S A := λ s, (r, s).

Definition raise_opt {S} (e : option exn) : M S unit :=
  match e with
  | Some e => raise e
  | None => mret tt
  end.

(** The body of a [for] loop run over the items an iterator yields. *)
Fixpoint for_each {S} (xs : list value) (body : value → M S unit) : M S unit :=
  match xs with
  | [] => mret tt
  | x :: xs' => body x ≫= λ _, for_each xs' body
  end.

(** A list comprehension [[body(x) for x in xs]]. *)
Fixpoint list_comp {S A} (xs : list value) (body : value → M S A) : M S (list A) :=
  match xs with
  | [] => mret []
  | x :: xs' => y ← body x; ys ← list_comp xs' body; mret (y :: ys)
  end.

(** ** Stage descriptors *)

Inductive worker_constructor_t := Thread | Process.

(** The stage classes of api.py. *)
Inductive stage_class := FromIterable | Map | FlatMap | Filter | Each | Concat.

Module Stage.
(** Modelled from the spec: the base class [Stage] (pypeln/process/stage.py)
    is not part of api.py; its constructor stores its arguments as the
    fields of the new descriptor (spec, Data model, Stage Descriptor).
    [iterable] is the extra field [FromIterable.__init__] sets;
    [worker_constructor] is [None] where the subclass does not pass it. *)
Record t := {
  cls : stage_class;
  iterable : option value;
  f : option callable;
  worker_constructor : option worker_constructor_t;
  workers : Z;
  maxsize : Z;
  on_start : option callable;
  on_done : option callable;
  dependencies : list ref;
}.
End Stage.

(** What the builders can observe of the engine: iterating a stage drains the
    graph below it. *)
Inductive event := Drain (r : ref).

Record state := {
  heap : list Stage.t;
  log : list event;
}.

(** Constructing an object puts it at a fresh reference. *)
Definition alloc (s : Stage.t) : M state ref := λ st,
  (Ok (length (heap st)), {| heap := heap st ++ [s]; log := log st |}).

Definition emit (ev : event) : M state unit := λ st,
  (Ok tt, {| heap := heap st; log := log st ++ [ev] |}).

(** ** The builders *)

(** The lambdas handed to [pypeln_utils.Partial], each with the variables it
    captures. The lambda of [from_iterable] captures [worker_constructor]
    only; the lambda of [each] does not capture [run]. *)
Inductive partial :=
| Lambda_from_iterable (worker_constructor : worker_constructor_t)
| Lambda_map (f : callable) (workers maxsize : Z) (on_start on_done : option callable)
| Lambda_flat_map (f : callable) (workers maxsize : Z) (on_start on_done : option callable)
| Lambda_filter (f : callable) (workers maxsize : Z) (on_start on_done : option callable)
| Lambda_each (f : callable) (workers maxsize : Z) (on_start on_done : option callable)
| Lambda_to_iterable (maxsize : Z).

(** What a builder returns: a stage, a [Partial], [None], or the lazy
    sequence of [to_iterable]. *)
Inductive retval :=
| RStage (r : ref)
| RPartial (p : partial)
| RNone
| RIterable (r : ref) (maxsize : Z).

Module api.
Section Engine.

(** What iterating a stage yields ([Stage.__iter__], stage.py): the items
    drained and the failure raised after them, if any. The engine is not
    part of api.py, so this is a parameter. *)
Variable Stage_iter : ref → list value * option exn.

(** The items [for x in v] visits, and the exception that ends the loop. *)
Definition iterate (v : value) : list value * option exn :=
  match v with
  | VList l | VSeq l => (l, None)
  | VGen l e => (l, e)
  | VStage r => Stage_iter r
  | _ => ([], Some TypeError)
  end.

(** [for x in v: body(x)] *)
Definition py_for {S} (v : value) (body : value → M S unit) : M S unit :=
  for_each (iterate v).1 body ≫= λ _, raise_opt (iterate v).2.

(** In builder code, iterating a stage object starts its drain. *)
Definition note_iter (v : value) : M state unit :=
  match v with
  | VStage r => emit (Drain r)
  | _ => mret tt
  end.

(** *** from_iterable *)

Definition from_iterable (iterable : value) (maxsize : option Z)
    (worker_constructor : worker_constructor_t) : M state retval :=
  if is_undefined iterable then
    mret (RPartial (Lambda_from_iterable worker_constructor))
  else
    r ← alloc {| Stage.cls := FromIterable;
                 Stage.iterable := Some iterable;
                 Stage.f := None;
                 Stage.worker_constructor := Some worker_constructor;
                 Stage.workers := 1;
                 Stage.maxsize := 0;
                 Stage.on_start := None;
                 Stage.on_done := None;
                 Stage.dependencies := [] |};
    mret (RStage r).

(** *** to_stage *)

(** [from_iterable] answers with a stage whenever its argument is not
    [UNDEFINED]; the other answers cannot reach [to_stage]'s caller (lemma
    [to_stage_iterable] below). *)
Definition expect_stage (res : retval) : M state ref :=
  match res with
  | RStage r => mret r
  | _ => raise TypeError
  end.

Definition to_stage (obj : value) : M state ref :=
  match obj with
  | VStage r => mret r
  | _ =>
    if hasattr_iter obj then
      from_iterable obj None Thread ≫= expect_stage
    else
      raise (ValueError "Object {obj} is not a Stage or iterable" (Some obj))
  end.

(** The constructor call shared by [map], [flat_map], [filter], [each]. *)
Definition new_stage (c : stage_class) (f : callable) (workers maxsize : Z)
    (on_start on_done : option callable) (dep : ref) : M state ref :=
  alloc {| Stage.cls := c;
           Stage.iterable := None;
           Stage.f := Some f;
           Stage.worker_constructor := None;
           Stage.workers := workers;
           Stage.maxsize := maxsize;
           Stage.on_start := on_start;
           Stage.on_done := on_done;
           Stage.dependencies := [dep] |}.

(** *** map *)

Definition map (f : callable) (stage : value) (workers maxsize : Z)
    (on_start on_done : option callable) : M state retval :=
  if is_undefined stage then
    mret (RPartial (Lambda_map f workers maxsize on_start on_done))
  else
    stage ← to_stage stage;
    r ← new_stage Map f workers maxsize on_start on_done stage;
    mret (RStage r).

(** *** flat_map *)

Definition flat_map (f : callable) (stage : value) (workers maxsize : Z)
    (on_start on_done : option callable) : M state retval :=
  if is_undefined stage then
    mret (RPartial (Lambda_flat_map f workers maxsize on_start on_done))
  else
    stage ← to_stage stage;
    r ← new_stage FlatMap f workers maxsize on_start on_done stage;
    mret (RStage r).

(** *** filter *)

Definition filter (f : callable) (stage : value) (workers maxsize : Z)
    (on_start on_done : option callable) : M state retval :=
  if is_undefined stage then
    mret (RPartial (Lambda_filter f workers maxsize on_start on_done))
  else
    stage ← to_stage stage;
    r ← new_stage Filter f workers maxsize on_start on_done stage;
    mret (RStage r).

(** *** each *)

Definition each (f : callable) (stage : value) (workers maxsize : Z)
    (on_start on_done : option callable) (run : bool) : M state retval :=
  if is_undefined stage then
    mret (RPartial (Lambda_each f workers maxsize on_start on_done))
  else
    stage ← to_stage stage;
    stage ← new_stage Each f workers maxsize on_start on_done stage;
    if negb run then
      mret (RStage stage)
    else
      _ ← note_iter (VStage stage);
      _ ← py_for (VStage stage) (λ _, mret tt);
      mret RNone.

(** *** concat *)

Definition concat (stages : value) (maxsize : Z) : M state ref :=
  _ ← note_iter stages;
  stages' ← list_comp (iterate stages).1 to_stage;
  _ ← raise_opt (iterate stages).2;
  alloc {| Stage.cls := Concat;
           Stage.iterable := None;
           Stage.f := None;
           Stage.worker_constructor := None;
           Stage.workers := 1;
           Stage.maxsize := maxsize;
           Stage.on_start := None;
           Stage.on_done := None;
           Stage.dependencies := stages' |}.

(** *** to_iterable *)

(** Modelled from the spec: the method [Stage.to_iterable] (stage.py) is not
    part of api.py; it returns the lazy sequence of the spec's Lazy
    Consumer, which starts nothing until it is iterated. An object that is
    not a stage has no such method. *)
Definition Stage_to_iterable (stage : value) (maxsize : Z) : M state retval :=
  match stage with
  | VStage r => mret (RIterable r maxsize)
  | _ => raise AttributeError
  end.

Definition to_iterable (stage : value) (maxsize : Z) : M state retval :=
  if is_undefined stage then
    mret (RPartial (Lambda_to_iterable maxsize))
  else
    Stage_to_iterable stage maxsize.

(** *** run *)

Definition run (stages : value) (maxsize : Z) : M state retval :=
  if isinstance_list stages && bool_decide (len stages = Some 0%nat) then
    raise (ValueError "Expected at least 1 stage to run" None)
  else
    stage ← (if isinstance_list stages
             then r ← concat stages maxsize; mret (VStage r)
             else mret stages);
    stage ← to_iterable stage maxsize;
    _ ← note_iter stages;
    _ ← py_for stages (λ _, mret tt);
    mret RNone.

(** *** Partial *)

(** Modelled from the spec: the class [pypeln_utils.Partial]
    (pypeln/utils.py) is not part of api.py; applying a [Partial] to an
    object calls the lambda it wraps on that object. *)
Definition Partial_call (p : partial) (stage : value) : M state retval :=
  match p with
  | Lambda_from_iterable worker_constructor =>
      from_iterable stage None worker_constructor
  | Lambda_map f workers maxsize on_start on_done =>
      map f stage workers maxsize on_start on_done
  | Lambda_flat_map f workers maxsize on_start on_done =>
      flat_map f stage workers maxsize on_start on_done
  | Lambda_filter f workers maxsize on_start on_done =>
      filter f stage workers maxsize on_start on_done
  | Lambda_each f workers maxsize on_start on_done =>
      each f stage workers maxsize on_start on_done false
  | Lambda_to_iterable maxsize =>
      to_iterable stage maxsize
  end.

End Engine.
End api.

(** ** The per-item methods of the stage classes *)

(** The part of a running stage object its methods write: the output queues
    (one per downstream consumer) and the number of times the worker has
    read the shared error flag. *)
Record worker := {
  output_queues : list (list value);
  checks : nat;
}.

(** Modelled from the spec: [self.output_queues.put] (the queue set of
    pypeln/process/utils.py) is not part of api.py; a produced item is
    delivered to every output queue of the stage (spec, Queue Network:
    fan-out to every declared downstream edge). *)
Definition put (x : value) : M worker unit := λ w,
  (Ok tt, {| output_queues := (λ q, q ++ [x]) <$> output_queues w;
             checks := checks w |}).

(** [self.f(x, **kwargs)]: calling [None] is a [TypeError]. *)
Definition call (f : option callable) (x : value) (kw : kwargs) : M worker value :=
  match f with
  | Some g => lift (g x kw)
  | None => raise TypeError
  end.

Module methods.
Section Worker.

Variable Stage_iter : ref → list value * option exn.

(** The value [self.pipeline_namespace.error] has at the worker's k-th read
    of it. The flag is shared with every other worker of the pipeline, which
    may set it between two reads: its history is a parameter. *)
Variable error_at : nat → bool.

Definition pipeline_namespace_error : M worker bool := λ w,
  (Ok (error_at (checks w)),
   {| output_queues := output_queues w; checks := S (checks w) |}).

(** The loop of [FromIterable.process] over the items the iterator yields;
    the answer tells whether the [return] was taken. *)
Fixpoint process_loop (xs : list value) : M worker bool :=
  match xs with
  | [] => mret false
  | x :: xs' =>
    error ← pipeline_namespace_error;
    if (error : bool) then mret true
    else _ ← put x; process_loop xs'
  end.

Definition FromIterable_process (self : Stage.t) : M worker unit :=
  match Stage.iterable self with
  | None => raise AttributeError
  | Some iterable =>
    returned ← process_loop (api.iterate Stage_iter iterable).1;
    if (returned : bool) then mret tt
    else raise_opt (api.iterate Stage_iter iterable).2
  end.

Definition Map_apply (self : Stage.t) (x : value) (kw : kwargs) : M worker unit :=
  y ← call (Stage.f self) x kw;
  put y.

Definition FlatMap_apply (self : Stage.t) (x : value) (kw : kwargs) : M worker unit :=
  ys ← call (Stage.f self) x kw;
  api.py_for Stage_iter ys (λ y, put y).

Definition Filter_apply (self : Stage.t) (x : value) (kw : kwargs) : M worker unit :=
  keep ← call (Stage.f self) x kw;
  if truthy keep then put x else mret tt.

Definition Each_apply (self : Stage.t) (x : value) (kw : kwargs) : M worker unit :=
  _ ← call (Stage.f self) x kw;
  mret tt.

Definition Concat_apply (self : Stage.t) (x : value) : M worker unit :=
  put x.

(** [self.apply(x, **kwargs)], by the class of [self]. [Concat.apply] takes
    no keyword argument; [FromIterable] defines no [apply]. *)
Definition apply (self : Stage.t) (x : value) (kw : kwargs) : M worker unit :=
  match Stage.cls self with
  | Map => Map_apply self x kw
  | FlatMap => FlatMap_apply self x kw
  | Filter => Filter_apply self x kw
  | Each => Each_apply self x kw
  | Concat => match kw with [] => Concat_apply self x | _ => raise TypeError end
  | FromIterable => raise AttributeError
  end.

End Worker.
End methods.

(** ** The worker pool of one stage *)

Module pool.

(** A worker is idle, or holds the item it took: the elements its [apply]
    has still to push and the failure the call ends with. *)
Inductive slot :=
| Idle
| Busy (ys : list value) (e : option exn).

(** Modelled from the spec: the worker loop of [Stage] and the lazy consumer
    (pypeln/process/stage.py) are not part of api.py. This is the state of
    one stage fed by a source stage and drained by a consumer (spec, Worker
    Pool, Lazy Consumer and Shared Pipeline State): the items the source has
    still to emit, the stage's merged input, its workers, its output edge to
    the consumer, the items the consumer has returned, and the failure slot.
    Queues are unbounded, and the Done tokens of the termination protocol are
    left out: a run is complete when nothing is left anywhere. *)
Record t := {
  pending : list value;
  input : list value;
  slots : list slot;
  output : list value;
  drained : list value;
  failed : option exn;
}.

(** The steps that can interleave: the source emits its next item, worker
    [i] takes an item, pushes one element, or ends its call, and the
    consumer pulls one item. *)
Inductive action :=
| Produce
| Take (i : nat)
| Push (i : nat)
| Finish (i : nat)
| Pull.

Definition items (s : slot) : list value :=
  match s with
  | Idle => []
  | Busy ys _ => ys
  end.

Definition is_idle (s : slot) : bool :=
  match s with Idle => true | Busy _ _ => false end.

Definition init (xs : list value) (n : nat) : t :=
  {| pending := xs; input := []; slots := replicate n Idle;
     output := []; drained := []; failed := None |}.

(** Nothing is left to do, and nothing failed. *)
Definition complete (p : t) : bool :=
  match pending p, input p, output p, failed p with
  | [], [], [], None => forallb is_idle (slots p)
  | _, _, _, _ => false
  end.

Section Pool.

Variable Stage_iter : ref → list value * option exn.

(** The stage the workers belong to, and the keyword arguments of its
    workers (what [on_start] returned; empty without [on_start]). *)
Variable self : Stage.t.
Variable kw : kwargs.

(** What [self.apply(x, **kwargs)] pushes, in order, and the failure it ends
    with: the call is run on a single empty output queue. *)
Definition emitted (x : value) : list value * option exn :=
  let out := methods.apply Stage_iter self x kw
               {| output_queues := [[]]; checks := 0 |} in
  (default [] (head (output_queues out.2)),
   match out.1 with Ok _ => None | Raise e => Some e end).

(** Modelled from the spec: one step of the pool (spec, Worker Pool,
    processing loop). The source and the workers check the failure flag
    before starting on an item and do nothing more once it is set; a worker's
    failure is recorded when its call ends, the first failure being kept; the
    consumer returns items until a failure is recorded. *)
Definition step (a : action) (p : t) : option t :=
  match a with
  | Produce =>
    match failed p, pending p with
    | None, x :: xs =>
      Some {| pending := xs; input := input p ++ [x]; slots := slots p;
              output := output p; drained := drained p; failed := failed p |}
    | _, _ => None
    end
  | Take i =>
    match failed p, slots p !! i, input p with
    | None, Some Idle, x :: xs =>
      Some {| pending := pending p; input := xs;
              slots := <[i := Busy (emitted x).1 (emitted x).2]> (slots p);
              output := output p; drained := drained p; failed := failed p |}
    | _, _, _ => None
    end
  | Push i =>
    match slots p !! i with
    | Some (Busy (y :: ys) e) =>
      Some {| pending := pending p; input := input p;
              slots := <[i := Busy ys e]> (slots p);
              output := output p ++ [y]; drained := drained p;
              failed := failed p |}
    | _ => None
    end
  | Finish i =>
    match slots p !! i with
    | Some (Busy [] e) =>
      Some {| pending := pending p; input := input p;
              slots := <[i := Idle]> (slots p);
              output := output p; drained := drained p;
              failed := match failed p with Some e' => Some e' | None => e end |}
    | _ => None
    end
  | Pull =>
    match failed p, output p with
    | None, y :: ys =>
      Some {| pending := pending p; input := input p; slots := slots p;
              output := ys; drained := drained p ++ [y]; failed := failed p |}
    | _, _ => None
    end
  end.

(** A schedule is the order in which the steps are taken. *)
Fixpoint exec (sched : list action) (p : t) : option t :=
  match sched with
  | [] => Some p
  | a :: sched' =>
    match step a p with
    | Some p' => exec sched' p'
    | None => None
    end
  end.

(** Every item of the run, wherever it is: drained, on the output edge, in a
    worker's hands, or still to be made from an input item. *)
Definition content (p : t) : list value :=
  drained p ++ output p ++ (slots p ≫= items)
    ++ ((input p ++ pending p) ≫= λ x, (emitted x).1).

(** The number of steps a run has left. *)
Definition slot_fuel (s : slot) : nat :=
  match s with
  | Idle => 0
  | Busy ys _ => 2 * length ys + 1
  end.

Definition fuel (p : t) : nat :=
  sum_list_with (λ x, 2 * length (emitted x).1 + 3) (pending p)
  + sum_list_with (λ x, 2 * length (emitted x).1 + 2) (input p)
  + sum_list_with slot_fuel (slots p)
  + length (output p).

(** No failure is recorded and none is on its way: no worker holds a failed
    call, and [apply] fails on no item still to be processed. *)
Definition slot_ok (s : slot) : Prop :=
  match s with
  | Busy _ (Some _) => False
  | _ => True
  end.

Definition healthy (p : t) : Prop :=
  failed p = None
  ∧ Forall slot_ok (slots p)
  ∧ Forall (λ x, (emitted x).2 = None) (input p ++ pending p).

(** The action a scheduler that serves the consumer first, then the workers,
    then the source, takes next. *)
Definition busy_index (ss : list slot) : option nat :=
  fst <$> list_find (λ s, is_idle s = false) ss.

Definition idle_index (ss : list slot) : option nat :=
  fst <$> list_find (λ s, is_idle s = true) ss.

Definition next_action (p : t) : option action :=
  match output p with
  | _ :: _ => Some Pull
  | [] =>
    match busy_index (slots p) with
    | Some i =>
      match slots p !! i with
      | Some (Busy (_ :: _) _) => Some (Push i)
      | _ => Some (Finish i)
      end
    | None =>
      match input p, pending p with
      | _ :: _, _ => Take <$> idle_index (slots p)
      | [], _ :: _ => Some Produce
      | [], [] => None
      end
    end
  end.

(** The schedule that scheduler follows, for at most [n] steps. *)
Fixpoint schedule (n : nat) (p : t) : list action :=
  match n with
  | O => []
  | S n' =>
    match next_action p with
    | Some a =>
      match step a p with
      | Some p' => a :: schedule n' p'
      | None => []
      end
    | None => []
    end
  end.

End Pool.

(** The pool of stage [r] of a built graph: a stage with one dependency,
    which is a source stage. Its workers number [workers]; the source emits
    the items of its iterable. *)
Definition start (Stage_iter : ref → list value * option exn)
    (h : list Stage.t) (r : ref) : option (Stage.t * t) :=
  self ← h !! r;
  match Stage.dependencies self with
  | [d] =>
    source ← h !! d;
    iterable ← Stage.iterable source;
    Some (self, init (api.iterate Stage_iter iterable).1
                     (Z.to_nat (Stage.workers self)))
  | _ => None
  end.

End pool.

Arguments pool.emitted : simpl never.

(** ** Descriptors and inputs the statements below refer to *)

(** The descriptor [from_iterable] constructs for [iterable]. *)
Definition source_descriptor (iterable : value)
    (worker_constructor : worker_constructor_t) : Stage.t :=
  {| Stage.cls := FromIterable;
     Stage.iterable := Some iterable;
     Stage.f := None;
     Stage.worker_constructor := Some worker_constructor;
     Stage.workers := 1;
     Stage.maxsize := 0;
     Stage.on_start := None;
     Stage.on_done := None;
     Stage.dependencies := [] |}.

(** The descriptor [concat] constructs over the stages [deps]. *)
Definition concat_descriptor (maxsize : Z) (deps : list ref) : Stage.t :=
  {| Stage.cls := Concat;
     Stage.iterable := None;
     Stage.f := None;
     Stage.worker_constructor := None;
     Stage.workers := 1;
     Stage.maxsize := maxsize;
     Stage.on_start := None;
     Stage.on_done := None;
     Stage.dependencies := deps |}.

(** The descriptor [map], [flat_map], [filter] and [each] construct. *)
Definition stage_descriptor (c : stage_class) (f : callable) (workers maxsize : Z)
    (on_start on_done : option callable) (dep : ref) : Stage.t :=
  {| Stage.cls := c;
     Stage.iterable := None;
     Stage.f := Some f;
     Stage.worker_constructor := None;
     Stage.workers := workers;
     Stage.maxsize := maxsize;
     Stage.on_start := on_start;
     Stage.on_done := on_done;
     Stage.dependencies := [dep] |}.

(** [obj] is a stage or an iterable that is not the sentinel: what a builder
    accepts where a stage is expected. *)
Definition stage_like (obj : value) : bool :=
  isinstance_Stage obj || hasattr_iter obj.

(** [d] is the stage [to_stage] answers for [obj] when it runs on the heap
    [h0] and leaves the heap [h]: [obj] itself when it is a stage, and
    otherwise a source stage constructed over [obj] after [h0]. *)
Definition stage_of (h0 h : list Stage.t) (obj : value) (d : ref) : Prop :=
  match obj with
  | VStage r => d = r
  | _ => length h0 ≤ d ∧ h !! d = Some (source_descriptor obj Thread)
  end.

(** The store before anything is built. *)
Definition empty_state : state := {| heap := []; log := [] |}.

(** The source [[0..9]] of the spec's scenarios: [range(10)]. *)
Definition range10 : value := VSeq (VInt <$> seqZ 0 10).

(** The store after [from_iterable(range(10))]: one source stage, at
    reference 0. *)
Definition one_source : state :=
  {| heap := [source_descriptor range10 Thread]; log := [] |}.

(** An engine under which iterating a stage yields nothing. *)
Definition no_items : ref → list value * option exn := λ _, ([], None).

(** [x -> [] if x == 0 else [x, -x]] *)
Definition pair_unless_zero : callable := λ x _,
  match x with
  | VInt n => Ok (if (n =? 0)%Z then VList [] else VList [VInt n; VInt (- n)])
  | _ => Raise TypeError
  end.

(** [x -> x + 1] *)
Definition add1 : callable := λ x _,
  match x with
  | VInt n => Ok (VInt (n + 1))
  | _ => Raise TypeError
  end.

(** An engine under which draining stage 1 fails with an error of the
    user's. *)
Definition stage_1_fails : ref → list value * option exn := λ r,
  if decide (r = 1) then ([], Some (UserError 5)) else ([], None).

(** A flag that is never set. *)
Definition never_set : nat → bool := λ _, false.

(** [x -> x > 3] *)
Definition gt3 : callable := λ x _,
  match x with
  | VInt n => Ok (VBool (3 <? n)%Z)
  | _ => Raise TypeError
  end.

(** The heap after [flat_map(pair_unless_zero, range(10), workers=3)]. *)
Definition flat_map_scenario : list Stage.t :=
  heap (api.flat_map pair_unless_zero range10 3 0 None None empty_state).2.

(** The heap after [filter(gt3, range(10), workers=3)]. *)
Definition filter_scenario : list Stage.t :=
  heap (api.filter gt3 range10 3 0 None None empty_state).2.

(** [{1, -1, 2, -2, ..., 9, -9}] and [{4, 5, 6, 7, 8, 9}], in some order. *)
Definition pairs_1_to_9 : list value :=
  VInt <$> [1; -1; 2; -2; 3; -3; 4; -4; 5; -5; 6; -6; 7; -7; 8; -8; 9; -9]%Z.

Definition from_4_to_9 : list value := VInt <$> [4; 5; 6; 7; 8; 9]%Z.

(** The start of a run of the [flat_map] scenario in which the three
    workers hold an item each and the worker holding 2 pushes before the
    worker holding 1. *)
Definition flat_map_overtaking : list pool.action :=
  [pool.Produce; pool.Produce; pool.Produce;
   pool.Take 2; pool.Take 1; pool.Take 0;
   pool.Push 0; pool.Push 1; pool.Pull; pool.Pull].

(** The start of a run of the [filter] scenario in which the worker holding
    5 pushes before the worker holding 4. *)
Definition filter_overtaking : list pool.action :=
  [pool.Produce; pool.Produce; pool.Produce;
   pool.Produce; pool.Produce; pool.Produce;
   pool.Take 2; pool.Take 1; pool.Take 0;
   pool.Finish 2; pool.Finish 1; pool.Finish 0;
   pool.Take 2; pool.Take 1; pool.Take 0;
   pool.Finish 2; pool.Push 0; pool.Push 1; pool.Pull; pool.Pull].

(** A history of the shared error flag: another worker sets it after the
    third read. *)
Definition set_from_3 : nat → bool := λ i, bool_decide (3 ≤ i).

(** The worker's view of a stage with the output queues [qs]. *)
Definition queues (qs : list (list value)) (n : nat) : worker :=
  {| output_queues := qs; checks := n |}.

(** [qs] after the items [ys] were put, in order. *)
Definition pushed (ys : list value) (qs : list (list value)) : list (list value) :=
  (λ q, q ++ ys) <$> qs.
Arguments pushed : simpl never.

(** A computation only adds objects to the heap: what was there stays. *)
Definition grows {A} (m : M state A) : Prop :=
  ∀ st, heap st `prefix_of` heap (m st).2.

(** A computation starts no drain. *)
Definition quiet {A} (m : M state A) : Prop :=
  ∀ st, log (m st).2 = log st.

(** ** Further notions the properties of the code refer to *)



(** The generator function of the docstring of [flat_map]: it yields [x]
    when [x == 0], and [x] then [-x] otherwise. *)
Definition slow_integer_pair : callable := λ x _,
  match x with
  | VInt n => Ok (if (n =? 0)%Z then VGen [VInt n] None
                  else VGen [VInt n; VInt (- n)] None)
  | _ => Raise TypeError
  end.

(** [None], a boolean or an integer: an object that cannot be iterated. *)
Definition is_scalar (obj : value) : bool :=
  match obj with
  | VNone | VBool _ | VInt _ => true
  | _ => false
  end.

(** How a loop over an iterator ends: normally, or with the iterator's
    exception. *)
Definition ending (e : option exn) : result unit :=
  match e with
  | None => Ok tt
  | Some e => Raise e
  end.

(** Every stage of the store depends on stages constructed before it only:
    the dependency relation has no cycle and no dangling reference. *)
Definition acyclic (h : list Stage.t) : Prop :=
  ∀ r s, h !! r = Some s → Forall (λ d, d < r) (Stage.dependencies s).

(** A stage object handed to a builder is an object of the store. *)
Definition in_store (h : list Stage.t) (obj : value) : Prop :=
  match obj with
  | VStage r => r < length h
  | _ => True
  end.

(** A generator that yields 1 and 2 and then fails. *)
Definition two_then_fail : value := VGen [VInt 1; VInt 2] (Some (UserError 9)).

Ltac unfold_monad :=
  unfold mbind, M_bind, mret, M_ret, raise, lift, raise_opt, alloc, emit in *.

(** * Properties *)

(** ** The monad's operations on the heap and the log *)

Section Frame.

Context {A B : Type}.

Lemma grows_ret (a : A) : grows (mret a).
Proof. intros st. reflexivity. Qed.

Lemma grows_raise (e : exn) : grows (raise (A := A) e).
Proof. intros st. reflexivity. Qed.

Lemma grows_bind (m : M state A) (k : A → M state B) :
  grows m → (∀ a, grows (k a)) → grows (m ≫= k).
Proof.
  intros Hm Hk st. unfold_monad. specialize (Hm st).
  destruct (m st) as [[a|e] st']; simpl in *; [|done].
  etrans; [exact Hm | apply Hk].
Qed.

Lemma quiet_ret (a : A) : quiet (mret a).
Proof. intros st. reflexivity. Qed.

Lemma quiet_raise (e : exn) : quiet (raise (A := A) e).
Proof. intros st. reflexivity. Qed.

Lemma quiet_bind (m : M state A) (k : A → M state B) :
  quiet m → (∀ a, quiet (k a)) → quiet (m ≫= k).
Proof.
  intros Hm Hk st. unfold_monad. specialize (Hm st).
  destruct (m st) as [[a|e] st']; simpl in *; [|done].
  rewrite <- Hm. apply Hk.
Qed.

End Frame.

Lemma grows_alloc s : grows (alloc s).
Proof. intros st. simpl. by apply prefix_app_r. Qed.

Lemma quiet_alloc s : quiet (alloc s).
Proof. intros st. reflexivity. Qed.

Lemma grows_emit ev : grows (emit ev).
Proof. intros st. reflexivity. Qed.

Lemma grows_raise_opt e : grows (raise_opt e).
Proof. destruct e; [apply grows_raise | apply grows_ret]. Qed.

Lemma quiet_raise_opt e : quiet (raise_opt (S := state) e).
Proof. destruct e; [apply quiet_raise | apply quiet_ret]. Qed.

Lemma grows_for_each xs (body : value → M state unit) :
  (∀ x, grows (body x)) → grows (for_each xs body).
Proof.
  intros Hb. induction xs as [|x xs IH]; simpl.
  - apply grows_ret.
  - apply grows_bind; [apply Hb | intros _; exact IH].
Qed.

Lemma quiet_for_each xs (body : value → M state unit) :
  (∀ x, quiet (body x)) → quiet (for_each xs body).
Proof.
  intros Hb. induction xs as [|x xs IH]; simpl.
  - apply quiet_ret.
  - apply quiet_bind; [apply Hb | intros _; exact IH].
Qed.

Lemma grows_list_comp {A} xs (body : value → M state A) :
  (∀ x, grows (body x)) → grows (list_comp xs body).
Proof.
  intros Hb. induction xs as [|x xs IH]; simpl.
  - apply grows_ret.
  - apply grows_bind; [apply Hb | intros y].
    apply grows_bind; [exact IH | intros ys; apply grows_ret].
Qed.

Lemma quiet_list_comp {A} xs (body : value → M state A) :
  (∀ x, quiet (body x)) → quiet (list_comp xs body).
Proof.
  intros Hb. induction xs as [|x xs IH]; simpl.
  - apply quiet_ret.
  - apply quiet_bind; [apply Hb | intros y].
    apply quiet_bind; [exact IH | intros ys; apply quiet_ret].
Qed.

Create HintDb frame discriminated.

#[local] Hint Resolve grows_ret grows_raise grows_alloc grows_emit grows_raise_opt
  grows_for_each grows_list_comp : frame.
#[local] Hint Resolve quiet_ret quiet_raise quiet_alloc quiet_raise_opt
  quiet_for_each quiet_list_comp : frame.
#[local] Hint Extern 2 (grows (_ ≫= _)) => apply grows_bind; [|intros ?] : frame.
#[local] Hint Extern 2 (quiet (_ ≫= _)) => apply quiet_bind; [|intros ?] : frame.

(** ** The builders *)

Section BuilderFacts.

Variable Stage_iter : ref → list value * option exn.

Lemma from_iterable_stage iterable maxsize wc st :
  is_undefined iterable = false →
  api.from_iterable iterable maxsize wc st
  = (Ok (RStage (length (heap st))),
     {| heap := heap st ++ [source_descriptor iterable wc]; log := log st |}).
Proof.
  intros Hu. unfold api.from_iterable. rewrite Hu. reflexivity.
Qed.

Lemma hasattr_iter_defined obj : hasattr_iter obj = true → is_undefined obj = false.
Proof. by destruct obj. Qed.

Lemma to_stage_stage r st : api.to_stage (VStage r) st = (Ok r, st).
Proof. reflexivity. Qed.

Lemma to_stage_iterable obj st :
  isinstance_Stage obj = false → hasattr_iter obj = true →
  api.to_stage obj st
  = (Ok (length (heap st)),
     {| heap := heap st ++ [source_descriptor obj Thread]; log := log st |}).
Proof.
  intros Hs Hi. destruct obj; try discriminate; reflexivity.
Qed.

Lemma to_stage_other obj st :
  isinstance_Stage obj = false → hasattr_iter obj = false →
  api.to_stage obj st
  = (Raise (ValueError "Object {obj} is not a Stage or iterable" (Some obj)), st).
Proof.
  intros Hs Hi. destruct obj; try discriminate; reflexivity.
Qed.

Lemma grows_from_iterable iterable maxsize wc :
  grows (api.from_iterable iterable maxsize wc).
Proof. unfold api.from_iterable. destruct (is_undefined iterable); eauto with frame. Qed.

Lemma quiet_from_iterable iterable maxsize wc :
  quiet (api.from_iterable iterable maxsize wc).
Proof. unfold api.from_iterable. destruct (is_undefined iterable); eauto with frame. Qed.

Lemma grows_to_stage obj : grows (api.to_stage obj).
Proof.
  unfold api.to_stage, api.expect_stage.
  destruct obj; simpl; eauto using grows_from_iterable with frame.
  all: apply grows_bind; [apply grows_from_iterable|intros []; eauto with frame].
Qed.

Lemma quiet_to_stage obj : quiet (api.to_stage obj).
Proof.
  unfold api.to_stage, api.expect_stage.
  destruct obj; simpl; eauto using quiet_from_iterable with frame.
  all: apply quiet_bind; [apply quiet_from_iterable|intros []; eauto with frame].
Qed.

Lemma grows_new_stage c f workers maxsize on_start on_done dep :
  grows (api.new_stage c f workers maxsize on_start on_done dep).
Proof. apply grows_alloc. Qed.

Lemma quiet_new_stage c f workers maxsize on_start on_done dep :
  quiet (api.new_stage c f workers maxsize on_start on_done dep).
Proof. apply quiet_alloc. Qed.

#[local] Hint Resolve grows_to_stage quiet_to_stage grows_new_stage quiet_new_stage
  grows_from_iterable quiet_from_iterable : frame.

Lemma grows_map f obj workers maxsize on_start on_done :
  grows (api.map f obj workers maxsize on_start on_done).
Proof. unfold api.map. destruct (is_undefined obj); eauto 10 with frame. Qed.

Lemma grows_flat_map f obj workers maxsize on_start on_done :
  grows (api.flat_map f obj workers maxsize on_start on_done).
Proof. unfold api.flat_map. destruct (is_undefined obj); eauto 10 with frame. Qed.

Lemma grows_filter f obj workers maxsize on_start on_done :
  grows (api.filter f obj workers maxsize on_start on_done).
Proof. unfold api.filter. destruct (is_undefined obj); eauto 10 with frame. Qed.

Lemma grows_py_for v (body : value → M state unit) :
  (∀ x, grows (body x)) → grows (api.py_for Stage_iter v body).
Proof. intros Hb. unfold api.py_for. eauto 10 with frame. Qed.

Lemma grows_note_iter v : grows (api.note_iter v).
Proof. destruct v; simpl; eauto with frame. Qed.

Lemma grows_each f obj workers maxsize on_start on_done run :
  grows (api.each Stage_iter f obj workers maxsize on_start on_done run).
Proof.
  unfold api.each. destruct (is_undefined obj); [eauto with frame|].
  apply grows_bind; [eauto with frame|intros d].
  apply grows_bind; [eauto with frame|intros r].
  destruct run; simpl; [|eauto with frame].
  apply grows_bind; [apply grows_emit|intros _].
  apply grows_bind; [apply grows_py_for; eauto with frame|eauto with frame].
Qed.

Lemma quiet_each f obj workers maxsize on_start on_done :
  quiet (api.each Stage_iter f obj workers maxsize on_start on_done false).
Proof. unfold api.each. destruct (is_undefined obj); simpl; eauto 10 with frame. Qed.

Lemma quiet_map f obj workers maxsize on_start on_done :
  quiet (api.map f obj workers maxsize on_start on_done).
Proof. unfold api.map. destruct (is_undefined obj); eauto 10 with frame. Qed.

Lemma quiet_flat_map f obj workers maxsize on_start on_done :
  quiet (api.flat_map f obj workers maxsize on_start on_done).
Proof. unfold api.flat_map. destruct (is_undefined obj); eauto 10 with frame. Qed.

Lemma quiet_filter f obj workers maxsize on_start on_done :
  quiet (api.filter f obj workers maxsize on_start on_done).
Proof. unfold api.filter. destruct (is_undefined obj); eauto 10 with frame. Qed.

Lemma grows_concat stages maxsize : grows (api.concat Stage_iter stages maxsize).
Proof.
  unfold api.concat.
  apply grows_bind; [apply grows_note_iter|intros _].
  eauto 10 with frame.
Qed.

Lemma grows_to_iterable stage maxsize : grows (api.to_iterable stage maxsize).
Proof.
  unfold api.to_iterable, api.Stage_to_iterable.
  destruct stage; simpl; eauto with frame.
Qed.

Lemma grows_run stages maxsize : grows (api.run Stage_iter stages maxsize).
Proof.
  unfold api.run.
  destruct (isinstance_list stages && bool_decide (len stages = Some 0%nat));
    [eauto with frame|].
  apply grows_bind.
  { destruct (isinstance_list stages); [|eauto with frame].
    apply grows_bind; [apply grows_concat|eauto with frame]. }
  intros stage. apply grows_bind; [apply grows_to_iterable|intros _].
  apply grows_bind; [apply grows_note_iter|intros _].
  apply grows_bind; [apply grows_py_for; eauto with frame|eauto with frame].
Qed.

(** What is in the heap before a computation that only adds to it is there,
    unchanged, after it. *)
Lemma grows_lookup {A} (m : M state A) st r s :
  grows m → heap st !! r = Some s → heap (m st).2 !! r = Some s.
Proof.
  intros Hm Hr. destruct (Hm st) as [ext ->]. by apply lookup_app_l_Some.
Qed.

(** The comprehension of [concat] over a list of stages and iterables. *)
Lemma list_comp_to_stage l st :
  Forall (λ o, stage_like o = true) l →
  ∃ deps st',
    list_comp l api.to_stage st = (Ok deps, st')
    ∧ heap st `prefix_of` heap st'
    ∧ log st' = log st
    ∧ Forall2 (stage_of (heap st) (heap st')) l deps.
Proof.
  intros Hl. revert st. induction Hl as [|obj l Hobj _ IH]; intros st.
  - exists [], st. by repeat split; try constructor.
  - assert (∃ d st1, api.to_stage obj st = (Ok d, st1)
        ∧ heap st `prefix_of` heap st1 ∧ log st1 = log st
        ∧ stage_of (heap st) (heap st1) obj d) as (d & st1 & Hd & Hp1 & Hl1 & Hs1).
    { destruct (isinstance_Stage obj) eqn:Hst.
      - destruct obj; try discriminate.
        eexists _, _. split; [reflexivity|]. by repeat split.
      - assert (hasattr_iter obj = true) as Hit.
        { unfold stage_like in Hobj. by rewrite Hst in Hobj. }
        eexists _, _. split; [by apply to_stage_iterable|]. simpl.
        split; [by apply prefix_app_r|]. split; [done|].
        assert (length (heap st) ≤ length (heap st)
                ∧ (heap st ++ [source_descriptor obj Thread]) !! length (heap st)
                  = Some (source_descriptor obj Thread)) as Hnew.
        { split; [done|]. by rewrite lookup_app_r, Nat.sub_diag. }
        by destruct obj. }
    destruct (IH st1) as (ds & st' & Hds & Hp & Hlog & Hall).
    exists (d :: ds), st'. simpl. unfold_monad. rewrite Hd, Hds.
    repeat split; [by etrans|congruence|].
    constructor.
    + destruct obj; try done; simpl in *.
      all: destruct Hs1 as [Hle Hlook]; split; [done|].
      all: destruct Hp as [ext ->]; by apply lookup_app_l_Some.
    + eapply Forall2_impl; [exact Hall|].
      intros o d' Ho. destruct o; try done; simpl in *.
      all: destruct Ho as [Hle Hlook]; split; [|done].
      all: apply prefix_length in Hp1; lia.
Qed.

(** The comprehension stops at the first object that is neither a stage nor
    an iterable. *)
Lemma list_comp_to_stage_bad before obj after st :
  Forall (λ o, stage_like o = true) before → stage_like obj = false →
  ∃ st',
    list_comp (before ++ obj :: after) api.to_stage st
    = (Raise (ValueError "Object {obj} is not a Stage or iterable" (Some obj)), st')
    ∧ heap st `prefix_of` heap st' ∧ log st' = log st.
Proof.
  intros Hb Hobj. revert st. induction Hb as [|o l Ho _ IH]; intros st.
  - exists st. simpl. unfold_monad.
    rewrite to_stage_other; [done| |]; by destruct obj.
  - destruct (list_comp_to_stage [o] st) as (ds & st1 & Hds & Hp1 & Hl1 & _);
      [by constructor|].
    simpl in Hds. unfold_monad.
    destruct (api.to_stage o st) as [[d|e] st1'] eqn:Hd; [|done].
    injection Hds as <- <-.
    destruct (IH st1') as (st' & Hr & Hp & Hlog).
    exists st'. simpl. unfold_monad. rewrite Hd, Hr.
    repeat split; [by etrans|congruence].
Qed.

(** [for _ in xs: pass] does nothing. *)
Lemma for_each_pass {S} (xs : list value) (s : S) :
  for_each xs (λ _, mret tt) s = (Ok tt, s).
Proof. induction xs as [|x xs IH]; [done|]. simpl. unfold_monad. exact IH. Qed.

Lemma for_each_skip {S} (xs : list value) (s : S) :
  for_each xs (λ _ s', (Ok tt, s')) s = (Ok tt, s).
Proof. exact (for_each_pass xs s). Qed.

(** [concat] over a list of stages and iterables. *)
Lemma concat_of_list l maxsize st :
  Forall (λ o, stage_like o = true) l →
  ∃ deps h,
    api.concat Stage_iter (VList l) maxsize st
    = (Ok (length h),
       {| heap := h ++ [concat_descriptor maxsize deps]; log := log st |})
    ∧ heap st `prefix_of` h
    ∧ Forall2 (stage_of (heap st) h) l deps.
Proof.
  intros Hl.
  destruct (list_comp_to_stage l st Hl) as (deps & st' & Hds & Hp & Hlog & Hall).
  exists deps, (heap st'). unfold api.concat. simpl. unfold_monad. simpl.
  rewrite Hds. simpl. rewrite Hlog. by repeat split.
Qed.

End BuilderFacts.

(** ** Claims about the builders *)

(** C6: [to_stage] returns a value that is already a stage unchanged (the
    same object, the store untouched), and wraps any other object that has
    [__iter__] as a new source stage over that object, with exactly 1 worker
    and no dependency, leaving the rest of the store as it was. *)
Theorem to_stage_wraps_iterables (obj : value) (st : state) :
  (∀ r, obj = VStage r → api.to_stage obj st = (Ok r, st))
  ∧ (isinstance_Stage obj = false → hasattr_iter obj = true →
     ∃ s, api.to_stage obj st
          = (Ok (length (heap st)), {| heap := heap st ++ [s]; log := log st |})
        ∧ Stage.cls s = FromIterable
        ∧ Stage.iterable s = Some obj
        ∧ Stage.workers s = 1%Z
        ∧ Stage.dependencies s = []).
Proof.
  split.
  - intros r ->. apply to_stage_stage.
  - intros Hs Hi. exists (source_descriptor obj Thread).
    by rewrite to_stage_iterable.
Qed.

Lemma to_stage_wraps_iterables_witness :
  api.to_stage (VStage 0) one_source
  = (Ok 0%nat, one_source)
  ∧ ∃ s, api.to_stage range10 empty_state
         = (Ok 0%nat, {| heap := [s]; log := [] |})
       ∧ Stage.cls s = FromIterable
       ∧ Stage.iterable s = Some range10
       ∧ Stage.workers s = 1%Z
       ∧ Stage.dependencies s = [].
Proof.
  split.
  - apply (to_stage_wraps_iterables (VStage 0)). reflexivity.
  - apply (to_stage_wraps_iterables range10 empty_state); reflexivity.
Defined.

(** C9: [from_iterable] ignores [maxsize]: whatever value is passed, the
    source stage it constructs has 1 worker and maxsize 0, and two calls
    that differ only in [maxsize] behave the same (same answer, same
    descriptor put in the store). *)
Theorem from_iterable_ignores_maxsize (iterable : value) (m1 m2 : option Z)
    (wc : worker_constructor_t) (st : state) :
  api.from_iterable iterable m1 wc st = api.from_iterable iterable m2 wc st
  ∧ (is_undefined iterable = false →
     ∃ s, api.from_iterable iterable m1 wc st
          = (Ok (RStage (length (heap st))),
             {| heap := heap st ++ [s]; log := log st |})
        ∧ Stage.workers s = 1%Z
        ∧ Stage.maxsize s = 0%Z).
Proof.
  split; [reflexivity|].
  intros Hu. exists (source_descriptor iterable wc).
  by rewrite from_iterable_stage.
Qed.

Lemma from_iterable_ignores_maxsize_witness :
  api.from_iterable range10 (Some 4%Z) Process empty_state
  = api.from_iterable range10 None Process empty_state
  ∧ ∃ s, api.from_iterable range10 (Some 4%Z) Process empty_state
         = (Ok (RStage 0), {| heap := [s]; log := [] |})
       ∧ Stage.workers s = 1%Z
       ∧ Stage.maxsize s = 0%Z.
Proof.
  destruct (from_iterable_ignores_maxsize range10 (Some 4%Z) None Process empty_state)
    as [Heq Hs].
  split; [exact Heq|]. apply Hs. reflexivity.
Defined.

(** C5: for every list of stages and iterables, [concat] constructs one
    [Concat] descriptor with 1 worker, no function and no hooks, whose
    dependencies are the given stages in order, each iterable being wrapped
    as a new source stage first; it starts no drain and changes no existing
    descriptor; and [Concat.apply] pushes the item it receives, unchanged,
    onto every output queue. *)
Theorem concat_builds_pass_through (Stage_iter : ref → list value * option exn)
    (l : list value) (maxsize : Z) (st : state) :
  Forall (λ o, stage_like o = true) l →
  ∃ deps h,
    api.concat Stage_iter (VList l) maxsize st
    = (Ok (length h),
       {| heap := h ++ [concat_descriptor maxsize deps]; log := log st |})
    ∧ heap st `prefix_of` h
    ∧ Forall2 (stage_of (heap st) h) l deps
    ∧ Stage.workers (concat_descriptor maxsize deps) = 1%Z
    ∧ Stage.dependencies (concat_descriptor maxsize deps) = deps
    ∧ ∀ x qs n,
        methods.Concat_apply (concat_descriptor maxsize deps) x (queues qs n)
        = (Ok tt, queues (pushed [x] qs) n).
Proof.
  intros Hl.
  destruct (concat_of_list Stage_iter l maxsize st Hl) as (deps & h & Hc & Hp & Hall).
  exists deps, h. by repeat split.
Qed.

Lemma concat_builds_pass_through_witness :
  ∃ deps h,
    api.concat no_items (VList [VStage 0; VList [VInt 4; VInt 5]]) 0
      one_source
    = (Ok (length h),
       {| heap := h ++ [concat_descriptor 0 deps]; log := [] |})
    ∧ [source_descriptor range10 Thread] `prefix_of` h
    ∧ Forall2 (stage_of [source_descriptor range10 Thread] h)
        [VStage 0; VList [VInt 4; VInt 5]] deps
    ∧ Stage.workers (concat_descriptor 0 deps) = 1%Z
    ∧ Stage.dependencies (concat_descriptor 0 deps) = deps
    ∧ ∀ x qs n,
        methods.Concat_apply (concat_descriptor 0 deps) x (queues qs n)
        = (Ok tt, queues (pushed [x] qs) n).
Proof.
  apply (concat_builds_pass_through no_items [VStage 0; VList [VInt 4; VInt 5]] 0
           one_source).
  repeat constructor.
Defined.

(** C2: [run] on an empty list raises [ValueError] at once, the store and
    the drain log untouched. An object that is neither a stage nor an
    iterable makes [to_stage] raise [ValueError] at once, and so makes every
    builder that receives it as its stage argument ([map], [flat_map],
    [filter], [each] with any [run] flag), the store and the log untouched;
    in the list given to [concat] it raises the same error when the
    comprehension reaches it, no drain having begun. ([UNDEFINED] as the stage
    argument of a curried builder is an omitted argument, not an object
    passed.) *)
Theorem structural_misuse_fails_at_construction
    (Stage_iter : ref → list value * option exn) (obj : value) (st : state) :
  stage_like obj = false →
  let error := ValueError "Object {obj} is not a Stage or iterable" (Some obj) in
  (∀ maxsize,
     api.run Stage_iter (VList []) maxsize st
     = (Raise (ValueError "Expected at least 1 stage to run" None), st))
  ∧ api.to_stage obj st = (Raise error, st)
  ∧ (is_undefined obj = false →
     ∀ f workers maxsize on_start on_done,
       api.map f obj workers maxsize on_start on_done st = (Raise error, st)
       ∧ api.flat_map f obj workers maxsize on_start on_done st = (Raise error, st)
       ∧ api.filter f obj workers maxsize on_start on_done st = (Raise error, st)
       ∧ ∀ run, api.each Stage_iter f obj workers maxsize on_start on_done run st
                = (Raise error, st))
  ∧ (∀ before after maxsize,
       Forall (λ o, stage_like o = true) before →
       ∃ st', api.concat Stage_iter (VList (before ++ obj :: after)) maxsize st
              = (Raise error, st')
            ∧ log st' = log st).
Proof.
  intros Hobj error.
  assert (api.to_stage obj st = (Raise error, st)) as Hto.
  { apply to_stage_other; by destruct obj. }
  split; [done|]. split; [done|]. split.
  - intros Hu f workers maxsize on_start on_done.
    unfold api.map, api.flat_map, api.filter, api.each. rewrite Hu.
    unfold_monad. rewrite Hto. done.
  - intros before after maxsize Hb.
    destruct (list_comp_to_stage_bad before obj after st Hb Hobj)
      as (st' & Hr & _ & Hlog).
    exists st'. unfold api.concat. simpl. unfold_monad. simpl.
    by rewrite Hr.
Qed.

Lemma structural_misuse_fails_at_construction_witness :
  api.run no_items (VList []) 0 empty_state
  = (Raise (ValueError "Expected at least 1 stage to run" None), empty_state)
  ∧ api.to_stage (VInt 5) empty_state
    = (Raise (ValueError "Object {obj} is not a Stage or iterable" (Some (VInt 5))),
       empty_state)
  ∧ api.each no_items gt3 (VInt 5) 3 0 None None true empty_state
    = (Raise (ValueError "Object {obj} is not a Stage or iterable" (Some (VInt 5))),
       empty_state)
  ∧ ∃ st', api.concat no_items (VList [range10; VInt 5; range10]) 0 empty_state
           = (Raise (ValueError "Object {obj} is not a Stage or iterable"
                       (Some (VInt 5))), st')
         ∧ log st' = [].
Proof.
  destruct (structural_misuse_fails_at_construction no_items (VInt 5) empty_state)
    as (Hrun & Hto & Hbuild & Hconcat); [reflexivity|].
  split; [apply Hrun|]. split; [exact Hto|]. split.
  - apply Hbuild. reflexivity.
  - apply (Hconcat [range10] [range10] 0%Z). repeat constructor.
Defined.

(** C7: a builder call never mutates a stage that exists already. Whatever
    [map], [flat_map], [filter], [each] (with any [run] flag) and [concat]
    are given, a descriptor [s] that is in the store before the call is
    there, the same in all its fields, after the call. In particular one
    stage can feed two downstream stages: both name it as their dependency
    and it is unchanged. *)
Theorem builders_never_mutate (Stage_iter : ref → list value * option exn)
    (st : state) (r : ref) (s : Stage.t) :
  heap st !! r = Some s →
  (∀ f obj workers maxsize on_start on_done,
     heap (api.map f obj workers maxsize on_start on_done st).2 !! r = Some s
     ∧ heap (api.flat_map f obj workers maxsize on_start on_done st).2 !! r = Some s
     ∧ heap (api.filter f obj workers maxsize on_start on_done st).2 !! r = Some s
     ∧ ∀ run,
         heap (api.each Stage_iter f obj workers maxsize on_start on_done run st).2 !! r
         = Some s)
  ∧ (∀ stages maxsize,
       heap (api.concat Stage_iter stages maxsize st).2 !! r = Some s)
  ∧ (∀ f g w1 m1 w2 m2,
       let st1 := (api.map f (VStage r) w1 m1 None None st).2 in
       let st2 := (api.filter g (VStage r) w2 m2 None None st1).2 in
       heap st2 !! r = Some s
       ∧ heap st2 !! length (heap st)
         = Some (stage_descriptor Map f w1 m1 None None r)
       ∧ heap st2 !! S (length (heap st))
         = Some (stage_descriptor Filter g w2 m2 None None r)).
Proof.
  intros Hr. split; [|split].
  - intros f obj workers maxsize on_start on_done.
    repeat split; [| | |intros run]; apply grows_lookup;
      auto using grows_map, grows_flat_map, grows_filter, grows_each.
  - intros stages maxsize. apply grows_lookup; auto using grows_concat.
  - intros f g w1 m1 w2 m2. simpl.
    rewrite <- !(assoc_L (++)). simpl.
    split; [by apply lookup_app_l_Some|].
    split.
    + by rewrite lookup_app_r, Nat.sub_diag.
    + rewrite lookup_app_r by lia.
      by replace (S (length (heap st)) - length (heap st)) with 1 by lia.
Qed.

Lemma builders_never_mutate_witness :
  heap (api.each no_items gt3 (VStage 0) 3 0 None None true one_source).2 !! 0
  = Some (source_descriptor range10 Thread)
  ∧ heap (api.concat no_items (VList [VStage 0; VStage 0]) 0 one_source).2 !! 0
    = Some (source_descriptor range10 Thread).
Proof.
  destruct (builders_never_mutate no_items
              one_source
              0 (source_descriptor range10 Thread))
    as (Hb & Hc & _); [reflexivity|].
  split.
  - apply (Hb gt3 (VStage 0) 3%Z 0%Z None None).
  - apply Hc.
Defined.

(** C10: the builders are curried. With the stage argument omitted, [map],
    [flat_map], [filter], [each], [from_iterable] and [to_iterable] return a
    [Partial] and touch nothing; applying that [Partial] to an object is the
    same computation as calling the builder with the object and the same
    other arguments (whatever [maxsize] was given to [from_iterable], which
    it ignores), so it constructs the same descriptor. The [Partial] of
    [each] calls [each] with [run] false whatever [run] was given: a curried
    [each] starts no drain. *)
Theorem builders_are_curried (Stage_iter : ref → list value * option exn)
    (f : callable) (workers maxsize : Z) (on_start on_done : option callable)
    (run : bool) (wc : worker_constructor_t) (m : option Z) (st : state) :
  (∃ p, api.map f VUndefined workers maxsize on_start on_done st
        = (Ok (RPartial p), st)
      ∧ ∀ obj, api.Partial_call Stage_iter p obj
               = api.map f obj workers maxsize on_start on_done)
  ∧ (∃ p, api.flat_map f VUndefined workers maxsize on_start on_done st
          = (Ok (RPartial p), st)
        ∧ ∀ obj, api.Partial_call Stage_iter p obj
                 = api.flat_map f obj workers maxsize on_start on_done)
  ∧ (∃ p, api.filter f VUndefined workers maxsize on_start on_done st
          = (Ok (RPartial p), st)
        ∧ ∀ obj, api.Partial_call Stage_iter p obj
                 = api.filter f obj workers maxsize on_start on_done)
  ∧ (∃ p, api.each Stage_iter f VUndefined workers maxsize on_start on_done run st
          = (Ok (RPartial p), st)
        ∧ (∀ obj, api.Partial_call Stage_iter p obj
                  = api.each Stage_iter f obj workers maxsize on_start on_done false)
        ∧ ∀ obj, quiet (api.Partial_call Stage_iter p obj))
  ∧ (∃ p, api.from_iterable VUndefined m wc st = (Ok (RPartial p), st)
        ∧ ∀ obj, api.Partial_call Stage_iter p obj = api.from_iterable obj m wc)
  ∧ (∃ p, api.to_iterable VUndefined maxsize st = (Ok (RPartial p), st)
        ∧ ∀ obj, api.Partial_call Stage_iter p obj = api.to_iterable obj maxsize).
Proof.
  repeat split; eexists; (split; [reflexivity|]); try done.
  split; [done|]. intros obj. apply quiet_each.
Qed.

(** C1 (what the code does instead): given a non-empty list of stages and
    iterables, [run] builds the merged [Concat] stage and its lazy sequence,
    then loops over the list it was given, not over the merged stage: it
    returns [None] with no drain started, so nothing any stage produces is
    consumed. Given a single stage, [run] does drain it. *)
Theorem run_of_a_list_drains_nothing (Stage_iter : ref → list value * option exn)
    (l : list value) (maxsize : Z) (st : state) :
  l ≠ [] → Forall (λ o, stage_like o = true) l →
  (∃ deps h,
     api.run Stage_iter (VList l) maxsize st
     = (Ok RNone,
        {| heap := h ++ [concat_descriptor maxsize deps]; log := log st |}))
  ∧ (∀ r, log (api.run Stage_iter (VStage r) maxsize st).2 = log st ++ [Drain r]).
Proof.
  intros Hne Hl. split.
  - destruct (concat_of_list Stage_iter l maxsize st Hl) as (deps & h & Hc & _ & _).
    exists deps, h. unfold api.run.
    replace (isinstance_list (VList l) && bool_decide (len (VList l) = Some 0%nat))
      with false by (by destruct l).
    simpl isinstance_list. cbv iota. unfold_monad. rewrite Hc. simpl.
    unfold api.py_for. simpl. unfold_monad. by rewrite for_each_skip.
  - intros r. unfold api.run, api.py_for. simpl. unfold_monad. simpl.
    rewrite for_each_skip. by destruct (Stage_iter r).2.
Qed.

Lemma run_of_a_list_drains_nothing_witness :
  api.run no_items (VList [VStage 0]) 0
    one_source
  = (Ok RNone,
     {| heap := [source_descriptor range10 Thread; concat_descriptor 0 [0%nat]];
        log := [] |})
  ∧ log (api.run no_items (VStage 0) 0
           one_source).2
    = [Drain 0].
Proof.
  destruct (run_of_a_list_drains_nothing no_items [VStage 0] 0
              one_source)
    as [_ Hone]; [done|by repeat constructor|].
  split; [reflexivity|apply Hone].
Defined.

(** ** The per-item methods *)

Lemma pushed_nil qs : pushed [] qs = qs.
Proof.
  unfold pushed. rewrite <- (list_fmap_id qs) at 2.
  apply list_fmap_ext. intros _ q _. simpl. apply app_nil_r.
Qed.

Lemma pushed_app ys zs qs : pushed zs (pushed ys qs) = pushed (ys ++ zs) qs.
Proof.
  unfold pushed. rewrite <- list_fmap_compose.
  apply list_fmap_ext. intros _ q _. simpl. by rewrite <- (assoc_L (++)).
Qed.

Lemma put_pushes x qs n : put x (queues qs n) = (Ok tt, queues (pushed [x] qs) n).
Proof. reflexivity. Qed.

(** A loop that puts every item it visits. *)
Lemma for_each_put ys qs n :
  for_each ys (λ y, put y) (queues qs n) = (Ok tt, queues (pushed ys qs) n).
Proof.
  revert qs. induction ys as [|y ys IH]; intros qs; simpl.
  - by rewrite pushed_nil.
  - unfold_monad. rewrite put_pushes, IH. by rewrite pushed_app.
Qed.

Section WorkerFacts.

Variable Stage_iter : ref → list value * option exn.
Variable error_at : nat → bool.

(** One turn of the producing loop. *)
Lemma process_loop_cons x xs w :
  methods.process_loop error_at (x :: xs) w
  = if error_at (checks w)
    then (Ok true, queues (output_queues w) (S (checks w)))
    else methods.process_loop error_at xs
           (queues (pushed [x] (output_queues w)) (S (checks w))).
Proof.
  simpl. unfold mbind, M_bind, methods.pipeline_namespace_error.
  by destruct (error_at (checks w)).
Qed.

(** The producing loop puts the items visited before the first read of the
    flag that finds it set, and no other. *)
Lemma process_loop_stops xs k w :
  (∀ i, i < k → error_at (checks w + i) = false) →
  error_at (checks w + k) = true →
  output_queues (methods.process_loop error_at xs w).2
  = pushed (take k xs) (output_queues w).
Proof.
  revert k w. induction xs as [|x xs IH]; intros k w Hbefore Hk.
  - simpl. by rewrite take_nil, pushed_nil.
  - rewrite process_loop_cons. destruct k as [|k].
    + rewrite Nat.add_0_r in Hk. rewrite Hk. simpl. by rewrite pushed_nil.
    + specialize (Hbefore 0) as H0. rewrite Nat.add_0_r in H0.
      rewrite H0 by lia. rewrite (IH k).
      * simpl. by rewrite pushed_app.
      * intros i Hi. simpl. rewrite <- (Hbefore (S i)) by lia. f_equal. lia.
      * simpl. rewrite <- Hk. f_equal. lia.
Qed.

(** When the flag is found set while items remain, the loop has returned. *)
Lemma process_loop_returns xs k w :
  (∀ i, i < k → error_at (checks w + i) = false) →
  error_at (checks w + k) = true →
  k < length xs →
  methods.process_loop error_at xs w
  = (Ok true, queues (pushed (take k xs) (output_queues w)) (S (checks w + k))).
Proof.
  revert k w. induction xs as [|x xs IH]; intros k w Hbefore Hk Hlen.
  - simpl in Hlen. lia.
  - rewrite process_loop_cons. destruct k as [|k].
    + rewrite Nat.add_0_r in Hk. rewrite Hk. simpl.
      by rewrite pushed_nil, Nat.add_0_r.
    + specialize (Hbefore 0) as H0. rewrite Nat.add_0_r in H0.
      rewrite H0 by lia. rewrite (IH k).
      * simpl. rewrite pushed_app. do 3 f_equal. lia.
      * intros i Hi. simpl. rewrite <- (Hbefore (S i)) by lia. f_equal. lia.
      * simpl. rewrite <- Hk. f_equal. lia.
      * simpl in Hlen. lia.
Qed.

(** A flag that is set at some read was first found set at that read or at
    an earlier one. *)
Lemma first_read_set k :
  error_at k = true →
  ∃ j, j ≤ k ∧ error_at j = true ∧ ∀ i, i < j → error_at i = false.
Proof.
  intros Hk.
  assert ((∃ j, j ≤ k ∧ error_at j = true ∧ ∀ i, i < j → error_at i = false)
          ∨ ∀ i, i ≤ k → error_at i = false) as [Hfound|Hnone]; [|done|].
  { clear Hk. induction k as [|k [IH|IH]].
    - destruct (error_at 0) eqn:H0.
      + left. exists 0. split; [lia|]. split; [done|]. intros i Hi. lia.
      + right. intros i Hi. by replace i with 0 by lia.
    - left. destruct IH as (j & Hle & Hj & Hbefore). exists j.
      split; [lia|]. by split.
    - destruct (error_at (S k)) eqn:HS.
      + left. exists (S k). split; [lia|]. split; [done|].
        intros i Hi. apply IH. lia.
      + right. intros i Hi. destruct (decide (i = S k)) as [->|]; [done|].
        apply IH. lia. }
  rewrite Hnone in Hk by lia. done.
Qed.

(** While the flag is never found set, every item is put. *)
Lemma process_loop_all xs w :
  (∀ i, i < length xs → error_at (checks w + i) = false) →
  methods.process_loop error_at xs w
  = (Ok false, queues (pushed xs (output_queues w)) (checks w + length xs)).
Proof.
  revert w. induction xs as [|x xs IH]; intros w Hall.
  - simpl. unfold_monad. rewrite pushed_nil, Nat.add_0_r. by destruct w.
  - rewrite process_loop_cons.
    specialize (Hall 0) as H0. rewrite Nat.add_0_r in H0.
    rewrite H0 by (simpl; lia). rewrite IH.
    + simpl. rewrite pushed_app. do 3 f_equal. lia.
    + intros i Hi. simpl. rewrite <- (Hall (S i)) by (simpl; lia). f_equal. lia.
Qed.

Lemma FlatMap_apply_list self f x kw ys qs n :
  Stage.f self = Some f → f x kw = Ok (VList ys) →
  methods.FlatMap_apply Stage_iter self x kw (queues qs n)
  = (Ok tt, queues (pushed ys qs) n).
Proof.
  intros Hf Hx. unfold methods.FlatMap_apply, call, api.py_for. rewrite Hf.
  unfold mbind, M_bind, lift. rewrite Hx. simpl.
  by rewrite for_each_put.
Qed.

(** Whatever [f] returns, [FlatMap.apply] puts what iterating it yields. *)
Lemma FlatMap_apply_sequence self f x kw v ys qs n :
  Stage.f self = Some f → f x kw = Ok v →
  api.iterate Stage_iter v = (ys, None) →
  methods.FlatMap_apply Stage_iter self x kw (queues qs n)
  = (Ok tt, queues (pushed ys qs) n).
Proof.
  intros Hf Hx Hv. unfold methods.FlatMap_apply, call, api.py_for. rewrite Hf.
  unfold mbind, M_bind, lift. rewrite Hx, Hv. simpl.
  by rewrite for_each_put.
Qed.

Lemma Filter_apply_value self f x kw v qs n :
  Stage.f self = Some f → f x kw = Ok v →
  methods.Filter_apply self x kw (queues qs n)
  = (Ok tt, queues (if truthy v then pushed [x] qs else qs) n).
Proof.
  intros Hf Hx. unfold methods.Filter_apply, call. rewrite Hf.
  unfold mbind, M_bind, lift. rewrite Hx. by destruct (truthy v).
Qed.

End WorkerFacts.

(** C8: the producing loop of a source stage reads the shared error flag
    before it puts each item and returns as soon as a read finds it set.
    Once the flag is set, at the read before item number [k], no item from
    number [k] on is ever put: the output queues hold a prefix of at most [k]
    items of the iterable, whatever items remain in it. If that read is the
    first to find the flag set, they hold exactly the [k] items before it,
    and if items do remain, [process] has returned normally after that
    read. *)
Theorem source_stops_once_flag_is_set (Stage_iter : ref → list value * option exn)
    (error_at : nat → bool) (self : Stage.t) (iterable : value)
    (k : nat) (qs : list (list value)) :
  Stage.iterable self = Some iterable →
  error_at k = true →
  let xs := (api.iterate Stage_iter iterable).1 in
  let after := methods.FromIterable_process Stage_iter error_at self (queues qs 0) in
  (∃ j, j ≤ k ∧ output_queues after.2 = pushed (take j xs) qs)
  ∧ ((∀ i, i < k → error_at i = false) →
     output_queues after.2 = pushed (take k xs) qs
     ∧ (k < length xs →
        after = (Ok tt, queues (pushed (take k xs) qs) (S k)))).
Proof.
  intros Hit Hk xs after.
  assert (∀ j, (∀ i, i < j → error_at i = false) → error_at j = true →
            output_queues after.2 = pushed (take j xs) qs) as Hstops.
  { intros j Hbefore Hj. unfold after, methods.FromIterable_process.
    rewrite Hit. fold xs. unfold mbind, M_bind.
    pose proof (process_loop_stops error_at xs j (queues qs 0) Hbefore Hj) as Hout.
    destruct (methods.process_loop error_at xs (queues qs 0)) as [[[]|e] w];
      simpl in *; try done.
    by destruct (api.iterate Stage_iter iterable).2. }
  split.
  - destruct (first_read_set error_at k Hk) as (j & Hle & Hj & Hbefore).
    exists j. split; [done|]. by apply Hstops.
  - intros Hbefore. split; [by apply Hstops|].
    intros Hlen. unfold after, methods.FromIterable_process.
    rewrite Hit. fold xs. unfold mbind, M_bind.
    by rewrite (process_loop_returns error_at xs k (queues qs 0) Hbefore Hk Hlen).
Qed.

Lemma source_stops_once_flag_is_set_witness :
  (∃ j, j ≤ 5
        ∧ output_queues
            (methods.FromIterable_process no_items set_from_3
               (source_descriptor range10 Thread) (queues [[]; [VInt 7]] 0)).2
          = pushed (take j (VInt <$> seqZ 0 10)) [[]; [VInt 7]])
  ∧ methods.FromIterable_process no_items set_from_3
      (source_descriptor range10 Thread) (queues [[]; [VInt 7]] 0)
    = (Ok tt, queues [[VInt 0; VInt 1; VInt 2]; [VInt 7; VInt 0; VInt 1; VInt 2]] 4).
Proof.
  split.
  - apply (source_stops_once_flag_is_set no_items set_from_3
             (source_descriptor range10 Thread) range10 5 [[]; [VInt 7]]);
      reflexivity.
  - destruct (source_stops_once_flag_is_set no_items set_from_3
                (source_descriptor range10 Thread) range10 3 [[]; [VInt 7]])
      as [_ Hfirst]; [reflexivity|reflexivity|].
    destruct Hfirst as [_ Hret].
    + intros i Hi. unfold set_from_3. apply bool_decide_eq_false. lia.
    + apply Hret. vm_compute. lia.
Defined.

(** ** The worker pool *)

Section PoolFacts.

Variable Stage_iter : ref → list value * option exn.
Variable self : Stage.t.
Variable kw : kwargs.

Abbreviation emitted := (pool.emitted Stage_iter self kw).
Abbreviation step := (pool.step Stage_iter self kw).
Abbreviation exec := (pool.exec Stage_iter self kw).
Abbreviation content := (pool.content Stage_iter self kw).
Abbreviation fuel := (pool.fuel Stage_iter self kw).

(** Replacing what worker [i] holds moves its items and no other. *)
Lemma slots_insert_items (ss : list pool.slot) i s :
  ss !! i = Some s →
  ∃ rest,
    ss ≫= pool.items ≡ₚ pool.items s ++ rest
    ∧ ∀ s', <[i := s']> ss ≫= pool.items ≡ₚ pool.items s' ++ rest.
Proof.
  intros Hi.
  exists ((take i ss ≫= pool.items) ++ (drop (S i) ss ≫= pool.items)). split.
  - rewrite <- (take_drop_middle ss i s Hi) at 1.
    rewrite !bind_app, !bind_cons. solve_Permutation.
  - intros s'. rewrite insert_take_drop by (by eapply lookup_lt_Some).
    rewrite !bind_app, !bind_cons. solve_Permutation.
Qed.

(** No step makes or loses an item. *)
Lemma step_content a p p' : step a p = Some p' → content p' ≡ₚ content p.
Proof.
  unfold pool.content, pool.step. intros Hstep. destruct a as [|i|i|i|].
  - destruct (pool.failed p), (pool.pending p) as [|x xs]; simplify_eq.
    cbn [pool.drained pool.output pool.slots pool.input pool.pending].
    by rewrite <- (assoc_L (++) (pool.input p) [x] xs).
  - destruct (pool.failed p), (pool.slots p !! i) as [[|]|] eqn:Hi,
      (pool.input p) as [|x xs]; simplify_eq.
    cbn [pool.drained pool.output pool.slots pool.input pool.pending].
    destruct (slots_insert_items _ i _ Hi) as (rest & Hold & Hnew).
    rewrite Hold, Hnew, <- app_comm_cons, bind_cons.
    cbn [pool.items]. solve_Permutation.
  - destruct (pool.slots p !! i) as [[|[|y ys] e]|] eqn:Hi; simplify_eq.
    cbn [pool.drained pool.output pool.slots pool.input pool.pending].
    destruct (slots_insert_items _ i _ Hi) as (rest & Hold & Hnew).
    rewrite Hold, Hnew. cbn [pool.items]. solve_Permutation.
  - destruct (pool.slots p !! i) as [[|[|y ys] e]|] eqn:Hi; simplify_eq.
    cbn [pool.drained pool.output pool.slots pool.input pool.pending].
    destruct (slots_insert_items _ i _ Hi) as (rest & Hold & Hnew).
    rewrite Hold, Hnew. by cbn [pool.items].
  - destruct (pool.failed p), (pool.output p) as [|y ys]; simplify_eq.
    cbn [pool.drained pool.output pool.slots pool.input pool.pending].
    by rewrite <- (assoc_L (++) (pool.drained p) [y]).
Qed.

Lemma exec_content sched p p' : exec sched p = Some p' → content p' ≡ₚ content p.
Proof.
  revert p. induction sched as [|a sched IH]; intros p; simpl.
  - by intros [= ->].
  - destruct (step a p) as [p1|] eqn:Hstep; [|done].
    intros Hexec. rewrite (IH _ Hexec). by eapply step_content.
Qed.

Lemma forallb_idle_items ss :
  forallb pool.is_idle ss = true → ss ≫= pool.items = [].
Proof.
  induction ss as [|[|ys e] ss IH]; [done| |done].
  intros Hss. rewrite bind_cons. simpl. auto.
Qed.

(** In a complete run everything has been drained. *)
Lemma complete_content p : pool.complete p = true → content p = pool.drained p.
Proof.
  unfold pool.complete, pool.content.
  destruct (pool.pending p), (pool.input p), (pool.output p), (pool.failed p);
    try done.
  intros Hidle. rewrite (forallb_idle_items _ Hidle). simpl.
  by rewrite app_nil_r.
Qed.

Lemma init_content xs n : content (pool.init xs n) = xs ≫= λ x, (emitted x).1.
Proof.
  unfold pool.content. simpl.
  assert (replicate n pool.Idle ≫= pool.items = []) as ->; [|done].
  induction n as [|n IH]; [done|].
  change (replicate (S n) pool.Idle) with (pool.Idle :: replicate n pool.Idle).
  by rewrite bind_cons, IH.
Qed.

(** Whatever the schedule, a complete run has drained, up to order, what the
    stage's [apply] pushes for the items of the source. *)
Lemma complete_run_drained xs n sched p :
  exec sched (pool.init xs n) = Some p → pool.complete p = true →
  pool.drained p ≡ₚ xs ≫= λ x, (emitted x).1.
Proof.
  intros Hexec Hdone.
  rewrite <- (complete_content p Hdone), <- (init_content xs n).
  by eapply exec_content.
Qed.

(** Every step uses up one unit of fuel: a schedule is never longer than the
    fuel of the state it starts from. *)
Lemma slots_insert_fuel (ss : list pool.slot) i s s' :
  ss !! i = Some s →
  sum_list_with pool.slot_fuel (<[i := s']> ss) + pool.slot_fuel s
  = sum_list_with pool.slot_fuel ss + pool.slot_fuel s'.
Proof.
  intros Hi. rewrite insert_take_drop by (by eapply lookup_lt_Some).
  rewrite <- (take_drop_middle ss i s Hi) at 3.
  rewrite !sum_list_with_app. cbn [sum_list_with]. lia.
Qed.

Lemma step_fuel a p p' : step a p = Some p' → fuel p = S (fuel p').
Proof.
  unfold pool.fuel, pool.step. intros Hstep. destruct a as [|i|i|i|].
  - destruct (pool.failed p), (pool.pending p) as [|x xs]; simplify_eq.
    cbn [pool.drained pool.output pool.slots pool.input pool.pending].
    rewrite sum_list_with_app. cbn [sum_list_with]. lia.
  - destruct (pool.failed p), (pool.slots p !! i) as [[|]|] eqn:Hi,
      (pool.input p) as [|x xs]; simplify_eq.
    cbn [pool.drained pool.output pool.slots pool.input pool.pending].
    pose proof (slots_insert_fuel _ i _
      (pool.Busy (emitted x).1 (emitted x).2) Hi) as Hsum.
    cbn [pool.slot_fuel] in Hsum. cbn [sum_list_with]. lia.
  - destruct (pool.slots p !! i) as [[|[|y ys] e]|] eqn:Hi; simplify_eq.
    cbn [pool.drained pool.output pool.slots pool.input pool.pending].
    pose proof (slots_insert_fuel _ i _ (pool.Busy ys e) Hi) as Hsum.
    cbn [pool.slot_fuel length] in Hsum. rewrite length_app. simpl length. lia.
  - destruct (pool.slots p !! i) as [[|[|y ys] e]|] eqn:Hi; simplify_eq.
    cbn [pool.drained pool.output pool.slots pool.input pool.pending].
    pose proof (slots_insert_fuel _ i _ pool.Idle Hi) as Hsum.
    cbn [pool.slot_fuel length] in Hsum. lia.
  - destruct (pool.failed p), (pool.output p) as [|y ys]; simplify_eq.
    cbn [pool.drained pool.output pool.slots pool.input pool.pending length]. lia.
Qed.

Lemma exec_fuel sched p p' :
  exec sched p = Some p' → fuel p = length sched + fuel p'.
Proof.
  revert p. induction sched as [|a sched IH]; intros p; simpl.
  - by intros [= ->].
  - destruct (step a p) as [p1|] eqn:Hstep; [|done].
    intros Hexec. rewrite (step_fuel _ _ _ Hstep), (IH _ Hexec). lia.
Qed.

End PoolFacts.

Section PoolProgress.

Variable Stage_iter : ref → list value * option exn.
Variable self : Stage.t.
Variable kw : kwargs.

Abbreviation emitted := (pool.emitted Stage_iter self kw).
Abbreviation step := (pool.step Stage_iter self kw).
Abbreviation exec := (pool.exec Stage_iter self kw).
Abbreviation fuel := (pool.fuel Stage_iter self kw).
Abbreviation healthy := (pool.healthy Stage_iter self kw).

Lemma step_slots_length a p p' :
  step a p = Some p' → length (pool.slots p') = length (pool.slots p).
Proof.
  unfold pool.step. intros Hstep. destruct a as [|i|i|i|].
  - by destruct (pool.failed p), (pool.pending p); simplify_eq.
  - destruct (pool.failed p), (pool.slots p !! i) as [[|]|],
      (pool.input p); simplify_eq. apply length_insert.
  - destruct (pool.slots p !! i) as [[|[|y ys] e]|]; simplify_eq.
    apply length_insert.
  - destruct (pool.slots p !! i) as [[|[|y ys] e]|]; simplify_eq.
    apply length_insert.
  - by destruct (pool.failed p), (pool.output p); simplify_eq.
Qed.

(** Without a failing call no failure is ever recorded. *)
Lemma step_healthy a p p' : healthy p → step a p = Some p' → healthy p'.
Proof.
  unfold pool.healthy, pool.step. intros (Hf & Hs & Hx) Hstep.
  destruct a as [|i|i|i|].
  - destruct (pool.failed p), (pool.pending p) as [|x xs]; simplify_eq.
    cbn [pool.failed pool.slots pool.input pool.pending].
    by rewrite <- (assoc_L (++) (pool.input p) [x] xs).
  - destruct (pool.failed p), (pool.slots p !! i) as [[|]|] eqn:Hi,
      (pool.input p) as [|x xs]; simplify_eq.
    cbn [pool.failed pool.slots pool.input pool.pending].
    rewrite <- app_comm_cons in Hx. apply Forall_cons in Hx as [Hx1 Hx2].
    repeat split; [|done].
    apply Forall_insert; [done|]. cbn [pool.slot_ok]. by rewrite Hx1.
  - destruct (pool.slots p !! i) as [[|[|y ys] e]|] eqn:Hi; simplify_eq.
    cbn [pool.failed pool.slots pool.input pool.pending].
    repeat split; [done| |done].
    apply Forall_insert; [done|]. by apply (Forall_lookup_1 _ _ _ _ Hs Hi).
  - destruct (pool.slots p !! i) as [[|[|y ys] e]|] eqn:Hi; simplify_eq.
    cbn [pool.failed pool.slots pool.input pool.pending].
    pose proof (Forall_lookup_1 _ _ _ _ Hs Hi) as Hok.
    rewrite Hf. destruct e; [done|].
    repeat split; [|done]. by apply Forall_insert.
  - destruct (pool.failed p), (pool.output p) as [|y ys]; by simplify_eq.
Qed.

Lemma exec_healthy sched p p' : healthy p → exec sched p = Some p' → healthy p'.
Proof.
  revert p. induction sched as [|a sched IH]; intros p Hp; simpl.
  - by intros [= <-].
  - destruct (step a p) as [p1|] eqn:Hstep; [|done].
    apply IH. by eapply step_healthy.
Qed.

Lemma exec_slots_length sched p p' :
  exec sched p = Some p' → length (pool.slots p') = length (pool.slots p).
Proof.
  revert p. induction sched as [|a sched IH]; intros p; simpl.
  - by intros [= <-].
  - destruct (step a p) as [p1|] eqn:Hstep; [|done].
    intros Hexec. rewrite (IH _ Hexec). by eapply step_slots_length.
Qed.

Lemma exec_app sched1 sched2 p p1 p2 :
  exec sched1 p = Some p1 → exec sched2 p1 = Some p2 →
  exec (sched1 ++ sched2) p = Some p2.
Proof.
  revert p. induction sched1 as [|a sched1 IH]; intros p; simpl.
  - by intros [= ->].
  - destruct (step a p) as [p'|]; [|done]. apply IH.
Qed.

Lemma some_worker_busy (ss : list pool.slot) :
  forallb pool.is_idle ss = false →
  ∃ i ys e, ss !! i = Some (pool.Busy ys e).
Proof.
  induction ss as [|[|ys e] ss IH]; simpl; [done| |].
  - intros Hss. destruct (IH Hss) as (i & ys & e & Hi). by exists (S i), ys, e.
  - intros _. by exists 0, ys, e.
Qed.

Lemma all_idle_lookup (ss : list pool.slot) i s :
  forallb pool.is_idle ss = true → ss !! i = Some s → s = pool.Idle.
Proof.
  revert i. induction ss as [|[|ys e] ss IH]; intros [|i]; simpl; try done.
  - by intros _ [= <-].
  - apply IH.
Qed.

(** A pool with a worker, in which nothing failed, is never stuck before the
    run is complete. *)
Lemma progress p :
  healthy p → pool.slots p ≠ [] → pool.complete p = false →
  ∃ a p', step a p = Some p'.
Proof.
  unfold pool.healthy, pool.complete. intros (Hf & _ & _) Hw Hc.
  destruct (pool.output p) as [|y ys] eqn:Hout.
  - destruct (forallb pool.is_idle (pool.slots p)) eqn:Hidle.
    + destruct (pool.input p) as [|x xs] eqn:Hin.
      * destruct (pool.pending p) as [|x xs] eqn:Hpend.
        { by rewrite Hf in Hc. }
        exists pool.Produce. unfold pool.step. rewrite Hf, Hpend. eauto.
      * destruct (pool.slots p) as [|s ss] eqn:Hss; [done|].
        assert (s = pool.Idle) as ->.
        { by apply (all_idle_lookup (s :: ss) 0). }
        exists (pool.Take 0). unfold pool.step. rewrite Hf, Hss, Hin. simpl. eauto.
    + destruct (some_worker_busy _ Hidle) as (i & [|z zs] & e & Hi).
      * exists (pool.Finish i). unfold pool.step. rewrite Hi. eauto.
      * exists (pool.Push i). unfold pool.step. rewrite Hi. eauto.
  - exists pool.Pull. unfold pool.step. rewrite Hf, Hout. eauto.
Qed.

(** Every run that has not failed can be continued to a complete run. *)
Lemma no_deadlock p :
  healthy p → pool.slots p ≠ [] →
  ∃ sched p', exec sched p = Some p' ∧ pool.complete p' = true.
Proof.
  remember (fuel p) as n eqn:Hn. revert p Hn.
  induction n as [n IH] using lt_wf_ind. intros p -> Hp Hw.
  destruct (pool.complete p) eqn:Hc.
  - by exists [], p.
  - destruct (progress p Hp Hw Hc) as (a & p1 & Hstep).
    destruct (IH (fuel p1)) with (p := p1) as (sched & p' & Hexec & Hdone).
    + rewrite (step_fuel _ _ _ _ _ _ Hstep). lia.
    + done.
    + by eapply step_healthy.
    + intros Hnil. apply Hw, length_zero_iff_nil.
      rewrite <- (step_slots_length _ _ _ Hstep). by rewrite Hnil.
    + exists (a :: sched), p'. simpl. by rewrite Hstep.
Qed.

Lemma init_healthy xs n :
  Forall (λ x, (emitted x).2 = None) xs → healthy (pool.init xs n).
Proof.
  intros Hxs. repeat split; simpl; [|done].
  induction n; simpl; by constructor.
Qed.

(** From any point of a run of a stage with a worker whose [apply] fails on
    no item, the run can be completed; and however it is scheduled, it takes
    no more steps than the fuel of its first state. *)
Lemma run_completes xs n sched p :
  n ≠ 0 → Forall (λ x, (emitted x).2 = None) xs →
  exec sched (pool.init xs n) = Some p →
  length sched ≤ fuel (pool.init xs n)
  ∧ ∃ rest p', exec (sched ++ rest) (pool.init xs n) = Some p'
               ∧ pool.complete p' = true.
Proof.
  intros Hn Hxs Hexec. split.
  - rewrite (exec_fuel _ _ _ _ _ _ Hexec). lia.
  - destruct (no_deadlock p) as (rest & p' & Hrest & Hdone).
    + eapply exec_healthy; [|done]. by apply init_healthy.
    + intros Hnil. apply Hn.
      rewrite <- (length_replicate n pool.Idle).
      change (replicate n pool.Idle) with (pool.slots (pool.init xs n)).
      rewrite <- (exec_slots_length _ _ _ Hexec). by rewrite Hnil.
    + exists rest, p'. split; [|done]. by eapply exec_app.
Qed.

End PoolProgress.

(** ** Claims about the per-item methods and the scenarios *)

Section Scenarios.

Variable Stage_iter : ref → list value * option exn.

Lemma flat_map_scenario_start :
  pool.start Stage_iter flat_map_scenario 1
  = Some (stage_descriptor FlatMap pair_unless_zero 3 0 None None 0,
          pool.init (VInt <$> seqZ 0 10) 3).
Proof. reflexivity. Qed.

Lemma filter_scenario_start :
  pool.start Stage_iter filter_scenario 1
  = Some (stage_descriptor Filter gt3 3 0 None None 0,
          pool.init (VInt <$> seqZ 0 10) 3).
Proof. reflexivity. Qed.

Lemma pair_unless_zero_never_fails w m d n :
  (pool.emitted Stage_iter
     (stage_descriptor FlatMap pair_unless_zero w m None None d) [] (VInt n)).2
  = None.
Proof.
  unfold pool.emitted, methods.apply, methods.FlatMap_apply, api.py_for.
  simpl. unfold mbind, M_bind, lift. simpl.
  destruct (n =? 0)%Z; simpl; by rewrite ?for_each_put.
Qed.

Lemma gt3_never_fails w m d n :
  (pool.emitted Stage_iter
     (stage_descriptor Filter gt3 w m None None d) [] (VInt n)).2
  = None.
Proof.
  unfold pool.emitted, methods.apply, methods.Filter_apply.
  simpl. unfold mbind, M_bind, lift. simpl.
  by destruct (3 <? n)%Z.
Qed.

Lemma flat_map_scenario_fuel :
  pool.fuel Stage_iter (stage_descriptor FlatMap pair_unless_zero 3 0 None None 0)
    [] (pool.init (VInt <$> seqZ 0 10) 3) = 66.
Proof. vm_compute. reflexivity. Qed.

Lemma filter_scenario_fuel :
  pool.fuel Stage_iter (stage_descriptor Filter gt3 3 0 None None 0)
    [] (pool.init (VInt <$> seqZ 0 10) 3) = 42.
Proof. vm_compute. reflexivity. Qed.

Lemma not_in_ints (z : Z) (zs : list Z) : z ∉ zs → VInt z ∉ VInt <$> zs.
Proof. intros Hz (z' & [= ->] & Hin)%list_elem_of_fmap. done. Qed.

End Scenarios.

(** C3: for an item [x] on which [f] returns a sequence, [FlatMap.apply]
    calls [f(x, **kwargs)], iterates what it returned and puts every element
    it yields, in order, onto every output queue, and puts nothing when it
    yields nothing. The sequence is whatever [f] returned: a list, a tuple
    or range, a generator that ends normally; [ys] is what iterating it
    yields. Hence for the source [0..9] and
    [f(x) = [] if x == 0 else [x, -x]] with 3 workers: however the source,
    the workers and the consumer interleave, a complete run has drained
    exactly the 18 items [1, -1, ..., 9, -9] in some order, without 0; no
    run is longer than 66 steps, and every run can be continued to a
    complete one. *)
Theorem flat_map_pushes_each_element (Stage_iter : ref → list value * option exn)
    (self : Stage.t) (f : callable) (x : value) (kw : kwargs) (v : value)
    (ys : list value) (qs : list (list value)) (n : nat) :
  Stage.f self = Some f → f x kw = Ok v →
  api.iterate Stage_iter v = (ys, None) →
  methods.FlatMap_apply Stage_iter self x kw (queues qs n)
  = (Ok tt, queues (pushed ys qs) n)
  ∧ (ys = [] →
     methods.FlatMap_apply Stage_iter self x kw (queues qs n) = (Ok tt, queues qs n))
  ∧ ∃ stage p0,
      pool.start Stage_iter flat_map_scenario 1 = Some (stage, p0)
      ∧ Stage.cls stage = FlatMap
      ∧ length (pool.slots p0) = 3
      ∧ ∀ sched p,
          pool.exec Stage_iter stage [] sched p0 = Some p →
          (pool.complete p = true →
           pool.drained p ≡ₚ pairs_1_to_9
           ∧ length (pool.drained p) = 18
           ∧ VInt 0 ∉ pool.drained p)
          ∧ length sched ≤ 66
          ∧ ∃ rest p',
              pool.exec Stage_iter stage [] (sched ++ rest) p0 = Some p'
              ∧ pool.complete p' = true.
Proof.
  intros Hf Hx Hv.
  split; [by apply FlatMap_apply_sequence with f v|]. split.
  { intros ->. rewrite (FlatMap_apply_sequence _ _ f _ _ v []) by done.
    by rewrite pushed_nil. }
  eexists _, _. split; [apply flat_map_scenario_start|].
  split; [done|]. split; [done|]. intros sched p Hexec. split.
  - intros Hdone.
    assert (pool.drained p ≡ₚ pairs_1_to_9) as Hperm.
    { by rewrite (complete_run_drained _ _ _ _ _ _ _ Hexec Hdone). }
    split; [done|]. rewrite Hperm. split; [done|].
    apply not_in_ints. rewrite !not_elem_of_cons. repeat split; try done.
    apply not_elem_of_nil.
  - rewrite <- (flat_map_scenario_fuel Stage_iter).
    apply run_completes with p; [done| |done].
    apply Forall_fmap, Forall_true. intros z.
    apply pair_unless_zero_never_fails.
Qed.

Lemma flat_map_pushes_each_element_witness :
  methods.FlatMap_apply no_items
    (stage_descriptor FlatMap pair_unless_zero 3 0 None None 0) (VInt 3) []
    (queues [[]; [VInt 7]] 0)
  = (Ok tt, queues [[VInt 3; VInt (-3)]; [VInt 7; VInt 3; VInt (-3)]] 0)
  ∧ methods.FlatMap_apply no_items
      (stage_descriptor FlatMap slow_integer_pair 3 4 None None 0) (VInt 3) []
      (queues [[]; [VInt 7]] 0)
    = (Ok tt, queues [[VInt 3; VInt (-3)]; [VInt 7; VInt 3; VInt (-3)]] 0)
  ∧ methods.FlatMap_apply no_items
      (stage_descriptor FlatMap (λ _ _, Ok range10) 1 0 None None 0) VNone []
      (queues [[VInt 7]] 0)
    = (Ok tt, queues [VInt 7 :: (VInt <$> seqZ 0 10)] 0)
  ∧ ∃ stage p0 p1 sched p,
      pool.start no_items flat_map_scenario 1 = Some (stage, p0)
      ∧ pool.exec no_items stage [] flat_map_overtaking p0 = Some p1
      ∧ sched = flat_map_overtaking ++ pool.schedule no_items stage [] 66 p1
      ∧ pool.exec no_items stage [] sched p0 = Some p
      ∧ pool.complete p = true
      ∧ take 2 (pool.drained p) = [VInt 2; VInt 1]
      ∧ pool.drained p ≡ₚ pairs_1_to_9
      ∧ length (pool.drained p) = 18
      ∧ VInt 0 ∉ pool.drained p.
Proof.
  destruct (flat_map_pushes_each_element no_items
              (stage_descriptor FlatMap pair_unless_zero 3 0 None None 0)
              pair_unless_zero (VInt 3) [] (VList [VInt 3; VInt (-3)])
              [VInt 3; VInt (-3)] [[]; [VInt 7]] 0 eq_refl eq_refl eq_refl)
    as (Hlist & _ & stage & p0 & Hstart & _ & _ & Hruns).
  destruct (flat_map_pushes_each_element no_items
              (stage_descriptor FlatMap slow_integer_pair 3 4 None None 0)
              slow_integer_pair (VInt 3) [] (VGen [VInt 3; VInt (-3)] None)
              [VInt 3; VInt (-3)] [[]; [VInt 7]] 0 eq_refl eq_refl eq_refl)
    as (Hgen & _).
  destruct (flat_map_pushes_each_element no_items
              (stage_descriptor FlatMap (λ _ _, Ok range10) 1 0 None None 0)
              (λ _ _, Ok range10) VNone [] range10
              (VInt <$> seqZ 0 10) [[VInt 7]] 0 eq_refl eq_refl eq_refl)
    as (Hrange & _).
  split; [exact Hlist|]. split; [exact Hgen|]. split; [exact Hrange|].
  rewrite flat_map_scenario_start in Hstart. injection Hstart as <- <-.
  eexists _, _, _, _, _.
  split; [reflexivity|]. split; [vm_compute; reflexivity|].
  split; [reflexivity|].
  match goal with
  | |- pool.exec _ _ _ ?sched _ = Some ?p ∧ _ =>
    assert (pool.exec no_items
              (stage_descriptor FlatMap pair_unless_zero 3 0 None None 0) []
              sched (pool.init (VInt <$> seqZ 0 10) 3) = Some p) as Hexec
  end.
  { vm_compute. reflexivity. }
  split; [exact Hexec|].
  split; [vm_compute; reflexivity|].
  split; [vm_compute; reflexivity|].
  apply (Hruns _ _ Hexec). vm_compute. reflexivity.
Defined.

(** C4: for an item [x] on which [f] returns a value, [Filter.apply] calls
    [f(x, **kwargs)] and puts [x] itself, unchanged, onto every output queue
    when the value is true, and puts nothing when it is false. Hence for the
    source [0..9] and the predicate [x > 3] with 3 workers: however the
    source, the workers and the consumer interleave, a complete run has
    drained exactly [4, 5, 6, 7, 8, 9] in some order; no run is longer than
    42 steps, and every run can be continued to a complete one. *)
Theorem filter_pushes_item_when_true (Stage_iter : ref → list value * option exn)
    (self : Stage.t) (f : callable) (x : value) (kw : kwargs)
    (v : value) (qs : list (list value)) (n : nat) :
  Stage.f self = Some f → f x kw = Ok v →
  (truthy v = true →
   methods.Filter_apply self x kw (queues qs n) = (Ok tt, queues (pushed [x] qs) n))
  ∧ (truthy v = false →
     methods.Filter_apply self x kw (queues qs n) = (Ok tt, queues qs n))
  ∧ ∃ stage p0,
      pool.start Stage_iter filter_scenario 1 = Some (stage, p0)
      ∧ Stage.cls stage = Filter
      ∧ length (pool.slots p0) = 3
      ∧ ∀ sched p,
          pool.exec Stage_iter stage [] sched p0 = Some p →
          (pool.complete p = true →
           pool.drained p ≡ₚ from_4_to_9
           ∧ length (pool.drained p) = 6)
          ∧ length sched ≤ 42
          ∧ ∃ rest p',
              pool.exec Stage_iter stage [] (sched ++ rest) p0 = Some p'
              ∧ pool.complete p' = true.
Proof.
  intros Hf Hx.
  split; [intros Hv; by rewrite (Filter_apply_value _ f _ _ v), Hv|].
  split; [intros Hv; by rewrite (Filter_apply_value _ f _ _ v), Hv|].
  eexists _, _. split; [apply filter_scenario_start|].
  split; [done|]. split; [done|]. intros sched p Hexec. split.
  - intros Hdone.
    assert (pool.drained p ≡ₚ from_4_to_9) as Hperm.
    { by rewrite (complete_run_drained _ _ _ _ _ _ _ Hexec Hdone). }
    split; [done|]. by rewrite Hperm.
  - rewrite <- (filter_scenario_fuel Stage_iter).
    apply run_completes with p; [done| |done].
    apply Forall_fmap, Forall_true. intros z.
    apply gt3_never_fails.
Qed.

Lemma filter_pushes_item_when_true_witness :
  methods.Filter_apply (stage_descriptor Filter gt3 3 0 None None 0) (VInt 5) []
    (queues [[]; [VInt 7]] 0)
  = (Ok tt, queues [[VInt 5]; [VInt 7; VInt 5]] 0)
  ∧ methods.Filter_apply (stage_descriptor Filter gt3 3 0 None None 0) (VInt 2) []
      (queues [[]; [VInt 7]] 0)
    = (Ok tt, queues [[]; [VInt 7]] 0)
  ∧ ∃ stage p0 p1 sched p,
      pool.start no_items filter_scenario 1 = Some (stage, p0)
      ∧ pool.exec no_items stage [] filter_overtaking p0 = Some p1
      ∧ sched = filter_overtaking ++ pool.schedule no_items stage [] 42 p1
      ∧ pool.exec no_items stage [] sched p0 = Some p
      ∧ pool.complete p = true
      ∧ take 2 (pool.drained p) = [VInt 5; VInt 4]
      ∧ pool.drained p ≡ₚ from_4_to_9
      ∧ length (pool.drained p) = 6.
Proof.
  destruct (filter_pushes_item_when_true no_items
              (stage_descriptor Filter gt3 3 0 None None 0)
              gt3 (VInt 5) [] (VBool true) [[]; [VInt 7]] 0 eq_refl eq_refl)
    as (Hkeep & _ & stage & p0 & Hstart & _ & _ & Hruns).
  destruct (filter_pushes_item_when_true no_items
              (stage_descriptor Filter gt3 3 0 None None 0)
              gt3 (VInt 2) [] (VBool false) [[]; [VInt 7]] 0 eq_refl eq_refl)
    as (_ & Hdrop & _).
  split; [apply Hkeep; reflexivity|]. split; [apply Hdrop; reflexivity|].
  rewrite filter_scenario_start in Hstart. injection Hstart as <- <-.
  eexists _, _, _, _, _.
  split; [reflexivity|]. split; [vm_compute; reflexivity|].
  split; [reflexivity|].
  match goal with
  | |- pool.exec _ _ _ ?sched _ = Some ?p ∧ _ =>
    assert (pool.exec no_items
              (stage_descriptor Filter gt3 3 0 None None 0) []
              sched (pool.init (VInt <$> seqZ 0 10) 3) = Some p) as Hexec
  end.
  { vm_compute. reflexivity. }
  split; [exact Hexec|].
  split; [vm_compute; reflexivity|].
  split; [vm_compute; reflexivity|].
  apply (Hruns _ _ Hexec). vm_compute. reflexivity.
Defined.

(** ** The embedding on concrete inputs *)

Example map_apply_puts_result :
  methods.Map_apply (stage_descriptor Map add1 1 0 None None 0) (VInt 3) []
    (queues [[]; [VInt 7]] 0)
  = (Ok tt, queues [[VInt 4]; [VInt 7; VInt 4]] 0).
Proof. reflexivity. Qed.

Example each_apply_puts_nothing :
  methods.Each_apply (stage_descriptor Each add1 1 0 None None 0) (VInt 3) []
    (queues [[]; [VInt 7]] 0)
  = (Ok tt, queues [[]; [VInt 7]] 0).
Proof. reflexivity. Qed.

Example apply_failure_puts_nothing :
  methods.Filter_apply (stage_descriptor Filter gt3 1 0 None None 0) VNone []
    (queues [[]; [VInt 7]] 0)
  = (Raise TypeError, queues [[]; [VInt 7]] 0).
Proof. reflexivity. Qed.

Example flat_map_of_failing_generator :
  methods.FlatMap_apply no_items
    (stage_descriptor FlatMap
       (λ _ _, Ok (VGen [VInt 1; VInt 2] (Some (UserError 9)))) 1 0 None None 0)
    VNone [] (queues [[]] 0)
  = (Raise (UserError 9), queues [[VInt 1; VInt 2]] 0).
Proof. reflexivity. Qed.

Example process_never_interrupted :
  methods.FromIterable_process no_items never_set
    (source_descriptor (VList [VInt 1; VInt 2; VInt 3]) Thread) (queues [[]] 0)
  = (Ok tt, queues [[VInt 1; VInt 2; VInt 3]] 3).
Proof. reflexivity. Qed.

Example map_builds_two_stages :
  api.map add1 range10 3 4 None None empty_state
  = (Ok (RStage 1),
     {| heap := [source_descriptor range10 Thread;
                 stage_descriptor Map add1 3 4 None None 0];
        log := [] |}).
Proof. reflexivity. Qed.

Example each_with_run_drains :
  api.each no_items add1 range10 3 0 None None true empty_state
  = (Ok RNone,
     {| heap := [source_descriptor range10 Thread;
                 stage_descriptor Each add1 3 0 None None 0];
        log := [Drain 1] |}).
Proof. reflexivity. Qed.

Example each_with_run_surfaces_failure :
  (api.each stage_1_fails add1 range10 3 0 None None true empty_state).1
  = Raise (UserError 5).
Proof. reflexivity. Qed.

Example curried_each_does_not_run :
  api.Partial_call no_items (Lambda_each add1 3 0 None None) range10 empty_state
  = (Ok (RStage 1),
     {| heap := [source_descriptor range10 Thread;
                 stage_descriptor Each add1 3 0 None None 0];
        log := [] |}).
Proof. reflexivity. Qed.

Example run_of_a_tuple_fails :
  api.run no_items (VSeq [VStage 0]) 0 one_source = (Raise AttributeError, one_source).
Proof. reflexivity. Qed.

Example to_iterable_is_lazy :
  api.to_iterable (VStage 0) 2 one_source = (Ok (RIterable 0 2), one_source).
Proof. reflexivity. Qed.

(** * Further properties of the code *)

(** ** The per-item methods *)

Section MethodLaws.

Variable Stage_iter : ref → list value * option exn.

(** A loop that puts every item and then ends as the iterator ends. *)
Lemma py_for_put v qs n :
  api.py_for Stage_iter v (λ y, put y) (queues qs n)
  = (ending (api.iterate Stage_iter v).2,
     queues (pushed (api.iterate Stage_iter v).1 qs) n).
Proof.
  unfold api.py_for, mbind, M_bind. rewrite for_each_put.
  by destruct (api.iterate Stage_iter v).2.
Qed.

Lemma FlatMap_apply_value self f x kw v qs n :
  Stage.f self = Some f → f x kw = Ok v →
  methods.FlatMap_apply Stage_iter self x kw (queues qs n)
  = (ending (api.iterate Stage_iter v).2,
     queues (pushed (api.iterate Stage_iter v).1 qs) n).
Proof.
  intros Hf Hx. unfold methods.FlatMap_apply, call. rewrite Hf.
  unfold mbind, M_bind, lift. rewrite Hx. apply py_for_put.
Qed.

Lemma Map_apply_value self f x kw y qs n :
  Stage.f self = Some f → f x kw = Ok y →
  methods.Map_apply self x kw (queues qs n) = (Ok tt, queues (pushed [y] qs) n).
Proof.
  intros Hf Hx. unfold methods.Map_apply, call. rewrite Hf.
  unfold mbind, M_bind, lift. by rewrite Hx.
Qed.

(** When the call of [f] fails, or there is no [f], nothing is put. *)
Lemma call_fails f x kw qs n :
  (∀ g, f = Some g → ∃ e, g x kw = Raise e) →
  ∃ e, call f x kw (queues qs n) = (Raise e, queues qs n).
Proof.
  intros Hf. destruct f as [g|]; simpl.
  - destruct (Hf g eq_refl) as [e He]. exists e. unfold lift. by rewrite He.
  - by exists TypeError.
Qed.

End MethodLaws.





(** X3: the per-item method of a stage only ever appends. Whatever the class
    of the stage, the item, the function and the outcome (also when the call
    fails), every output queue afterwards is what it was followed by the same
    new items: nothing is taken off or reordered, and all consumers receive
    the same items. *)
Theorem apply_only_appends (Stage_iter : ref → list value * option exn)
    (self : Stage.t) (x : value) (kw : kwargs) (qs : list (list value)) (n : nat) :
  ∃ ys, (methods.apply Stage_iter self x kw (queues qs n)).2 = queues (pushed ys qs) n.
Proof.
  assert (∀ w : worker, w = queues qs n → ∃ ys, w = queues (pushed ys qs) n)
    as Hnone.
  { intros w ->. exists []. by rewrite pushed_nil. }
  unfold methods.apply.
  destruct (Stage.cls self); [by apply Hnone| | | | |].
  - unfold methods.Map_apply, call, mbind, M_bind, lift.
    destruct (Stage.f self) as [g|]; [|by apply Hnone].
    destruct (g x kw) as [y|e]; [by exists [y]|by apply Hnone].
  - unfold methods.FlatMap_apply, call, mbind, M_bind, lift.
    destruct (Stage.f self) as [g|]; [|by apply Hnone].
    destruct (g x kw) as [v|e]; [|by apply Hnone].
    exists (api.iterate Stage_iter v).1. by rewrite py_for_put.
  - unfold methods.Filter_apply, call, mbind, M_bind, lift.
    destruct (Stage.f self) as [g|]; [|by apply Hnone].
    destruct (g x kw) as [v|e]; [|by apply Hnone].
    destruct (truthy v); [by exists [x]|by apply Hnone].
  - unfold methods.Each_apply, call, mbind, M_bind, lift.
    destruct (Stage.f self) as [g|]; [|by apply Hnone].
    destruct (g x kw) as [v|e]; by apply Hnone.
  - destruct kw; [by exists [x]|by apply Hnone].
Qed.

(** X4: [FlatMap.apply] follows the iterator of what [f] returns. It puts
    the items the iterator yields, in order, and then ends as the iterator
    ends: a generator that fails midway leaves the items it had yielded on
    the queues and its exception is raised; a result that is not iterable
    raises [TypeError] with nothing put. *)
Theorem flat_map_apply_follows_the_iterator
    (Stage_iter : ref → list value * option exn) (self : Stage.t) (f : callable)
    (x : value) (kw : kwargs) (v : value) (qs : list (list value)) (n : nat) :
  Stage.f self = Some f → f x kw = Ok v →
  methods.FlatMap_apply Stage_iter self x kw (queues qs n)
  = (ending (api.iterate Stage_iter v).2,
     queues (pushed (api.iterate Stage_iter v).1 qs) n)
  ∧ (∀ ys e, v = VGen ys (Some e) →
       methods.FlatMap_apply Stage_iter self x kw (queues qs n)
       = (Raise e, queues (pushed ys qs) n))
  ∧ (hasattr_iter v = false →
       methods.FlatMap_apply Stage_iter self x kw (queues qs n)
       = (Raise TypeError, queues qs n)).
Proof.
  intros Hf Hx.
  rewrite (FlatMap_apply_value Stage_iter self f x kw v) by done.
  split; [done|]. split.
  - by intros ys e ->.
  - intros Hv. destruct v; try discriminate; simpl; by rewrite pushed_nil.
Qed.

Lemma flat_map_apply_follows_the_iterator_witness :
  methods.FlatMap_apply no_items
    (stage_descriptor FlatMap (λ _ _, Ok two_then_fail) 1 0 None None 0) VNone []
    (queues [[VInt 7]] 0)
  = (Raise (UserError 9), queues [[VInt 7; VInt 1; VInt 2]] 0)
  ∧ methods.FlatMap_apply no_items
      (stage_descriptor FlatMap add1 1 0 None None 0) (VInt 3) []
      (queues [[VInt 7]] 0)
    = (Raise TypeError, queues [[VInt 7]] 0).
Proof.
  split.
  - destruct (flat_map_apply_follows_the_iterator no_items
                (stage_descriptor FlatMap (λ _ _, Ok two_then_fail) 1 0 None None 0)
                (λ _ _, Ok two_then_fail) VNone [] two_then_fail [[VInt 7]] 0
                eq_refl eq_refl) as (_ & Hgen & _).
    by apply Hgen.
  - destruct (flat_map_apply_follows_the_iterator no_items
                (stage_descriptor FlatMap add1 1 0 None None 0)
                add1 (VInt 3) [] (VInt 4) [[VInt 7]] 0 eq_refl eq_refl)
      as (_ & _ & Hnot).
    by apply Hnot.
Defined.

(** X5: a failing call puts nothing. In a [Map], [FlatMap], [Filter] or
    [Each] stage, when [f] raises on the item, [apply] raises the same
    exception and every output queue is as it was. *)
Theorem failed_call_puts_nothing (Stage_iter : ref → list value * option exn)
    (self : Stage.t) (g : callable) (x : value) (kw : kwargs) (e : exn)
    (qs : list (list value)) (n : nat) :
  Stage.cls self ≠ Concat → Stage.cls self ≠ FromIterable →
  Stage.f self = Some g → g x kw = Raise e →
  methods.apply Stage_iter self x kw (queues qs n) = (Raise e, queues qs n).
Proof.
  intros Hc Hs Hg Hx. unfold methods.apply, methods.Map_apply,
    methods.FlatMap_apply, methods.Filter_apply, methods.Each_apply, call,
    mbind, M_bind, lift.
  rewrite Hg, Hx. by destruct (Stage.cls self).
Qed.

Lemma failed_call_puts_nothing_witness :
  methods.apply no_items (stage_descriptor Filter gt3 3 0 None None 0) VNone []
    (queues [[]; [VInt 7]] 0)
  = (Raise TypeError, queues [[]; [VInt 7]] 0).
Proof.
  by apply (failed_call_puts_nothing no_items
              (stage_descriptor Filter gt3 3 0 None None 0) gt3).
Defined.

(** X6: a source stage that is never interrupted emits its whole iterable.
    While the error flag is never found set, [FromIterable.process] puts
    every item the iterable yields, in order, on every output queue, reading
    the flag once per item, and then ends as the iterable ends: normally, or
    with the exception of a failing generator, the items yielded before it
    having been put. *)
Theorem process_emits_the_whole_iterable
    (Stage_iter : ref → list value * option exn) (error_at : nat → bool)
    (self : Stage.t) (iterable : value) (qs : list (list value)) :
  Stage.iterable self = Some iterable →
  (∀ i, i < length (api.iterate Stage_iter iterable).1 → error_at i = false) →
  methods.FromIterable_process Stage_iter error_at self (queues qs 0)
  = (ending (api.iterate Stage_iter iterable).2,
     queues (pushed (api.iterate Stage_iter iterable).1 qs)
       (length (api.iterate Stage_iter iterable).1)).
Proof.
  intros Hit Hnever. unfold methods.FromIterable_process. rewrite Hit.
  unfold mbind, M_bind.
  rewrite (process_loop_all error_at _ (queues qs 0)) by done.
  simpl. by destruct (api.iterate Stage_iter iterable).2.
Qed.

Lemma process_emits_the_whole_iterable_witness :
  methods.FromIterable_process no_items set_from_3
    (source_descriptor two_then_fail Thread) (queues [[]; [VInt 7]] 0)
  = (Raise (UserError 9), queues [[VInt 1; VInt 2]; [VInt 7; VInt 1; VInt 2]] 2).
Proof.
  apply (process_emits_the_whole_iterable no_items set_from_3
           (source_descriptor two_then_fail Thread) two_then_fail [[]; [VInt 7]]).
  - reflexivity.
  - intros i Hi. simpl in Hi. unfold set_from_3. apply bool_decide_eq_false. lia.
Defined.

(** X7: [from_iterable] does not check that its argument is iterable.
    Unlike [to_stage], which raises [ValueError] for them, it constructs a
    source stage over [None], a boolean or an integer and does not raise;
    the failure comes only when the stage runs: [process] of the stage it
    built raises [TypeError] and puts nothing, whatever the error flag. *)
Theorem from_iterable_defers_the_iterability_check
    (Stage_iter : ref → list value * option exn) (error_at : nat → bool)
    (obj : value) (maxsize : option Z) (wc : worker_constructor_t) (st : state) :
  is_scalar obj = true →
  ∃ s,
    api.from_iterable obj maxsize wc st
    = (Ok (RStage (length (heap st))), {| heap := heap st ++ [s]; log := log st |})
    ∧ api.to_stage obj st
      = (Raise (ValueError "Object {obj} is not a Stage or iterable" (Some obj)), st)
    ∧ ∀ qs n,
        methods.FromIterable_process Stage_iter error_at s (queues qs n)
        = (Raise TypeError, queues qs n).
Proof.
  intros Hs. exists (source_descriptor obj wc).
  assert (is_undefined obj = false) as Hu by by destruct obj.
  assert (hasattr_iter obj = false) as Hi by by destruct obj.
  rewrite from_iterable_stage by done. split; [done|]. split.
  - apply to_stage_other; [|done]. by destruct obj.
  - intros qs n. by destruct obj.
Qed.

Lemma from_iterable_defers_the_iterability_check_witness :
  ∃ s,
    api.from_iterable (VInt 5) None Thread empty_state
    = (Ok (RStage 0), {| heap := [s]; log := [] |})
    ∧ api.to_stage (VInt 5) empty_state
      = (Raise (ValueError "Object {obj} is not a Stage or iterable" (Some (VInt 5))),
         empty_state)
    ∧ ∀ qs n,
        methods.FromIterable_process no_items never_set s (queues qs n)
        = (Raise TypeError, queues qs n).
Proof.
  apply (from_iterable_defers_the_iterability_check no_items never_set (VInt 5)
           None Thread empty_state); reflexivity.
Defined.

(** ** The builders *)

Section BuilderLaws.

Variable Stage_iter : ref → list value * option exn.

(** What [to_stage] answers, for any object. *)
Lemma to_stage_cases obj st :
  (∃ r, obj = VStage r ∧ api.to_stage obj st = (Ok r, st))
  ∨ (isinstance_Stage obj = false ∧ hasattr_iter obj = true
     ∧ api.to_stage obj st
       = (Ok (length (heap st)),
          {| heap := heap st ++ [source_descriptor obj Thread]; log := log st |}))
  ∨ (stage_like obj = false
     ∧ api.to_stage obj st
       = (Raise (ValueError "Object {obj} is not a Stage or iterable" (Some obj)),
          st)).
Proof.
  destruct (isinstance_Stage obj) eqn:Hs.
  - left. destruct obj; try discriminate. by eexists.
  - destruct (hasattr_iter obj) eqn:Hi.
    + right; left. by rewrite to_stage_iterable.
    + right; right. unfold stage_like. rewrite Hs, Hi.
      by rewrite to_stage_other.
Qed.

(** The constructor call that ends [map], [flat_map], [filter] and [each]. *)
Lemma map_after_to_stage f obj w m s dn st d st1 :
  is_undefined obj = false → api.to_stage obj st = (Ok d, st1) →
  api.map f obj w m s dn st
  = (Ok (RStage (length (heap st1))),
     {| heap := heap st1 ++ [stage_descriptor Map f w m s dn d]; log := log st1 |}).
Proof.
  intros Hu Hd. unfold api.map. rewrite Hu. unfold_monad. by rewrite Hd.
Qed.

Lemma flat_map_after_to_stage f obj w m s dn st d st1 :
  is_undefined obj = false → api.to_stage obj st = (Ok d, st1) →
  api.flat_map f obj w m s dn st
  = (Ok (RStage (length (heap st1))),
     {| heap := heap st1 ++ [stage_descriptor FlatMap f w m s dn d];
        log := log st1 |}).
Proof.
  intros Hu Hd. unfold api.flat_map. rewrite Hu. unfold_monad. by rewrite Hd.
Qed.

Lemma filter_after_to_stage f obj w m s dn st d st1 :
  is_undefined obj = false → api.to_stage obj st = (Ok d, st1) →
  api.filter f obj w m s dn st
  = (Ok (RStage (length (heap st1))),
     {| heap := heap st1 ++ [stage_descriptor Filter f w m s dn d];
        log := log st1 |}).
Proof.
  intros Hu Hd. unfold api.filter. rewrite Hu. unfold_monad. by rewrite Hd.
Qed.

Lemma each_after_to_stage f obj w m s dn run st d st1 :
  is_undefined obj = false → api.to_stage obj st = (Ok d, st1) →
  api.each Stage_iter f obj w m s dn run st
  = (if run
     then match (Stage_iter (length (heap st1))).2 with
          | None => Ok RNone
          | Some e => Raise e
          end
     else Ok (RStage (length (heap st1))),
     {| heap := heap st1 ++ [stage_descriptor Each f w m s dn d];
        log := if run then log st1 ++ [Drain (length (heap st1))] else log st1 |}).
Proof.
  intros Hu Hd. unfold api.each. rewrite Hu. unfold_monad. rewrite Hd.
  destruct run; simpl; [|done].
  unfold api.py_for. simpl. unfold_monad. rewrite for_each_skip.
  by destruct (Stage_iter (length (heap st1))).2.
Qed.

Lemma stage_like_defined obj : stage_like obj = true → is_undefined obj = false.
Proof. by destruct obj. Qed.

End BuilderLaws.

(** X8: what [map], [flat_map], [filter] and [each] (without [run])
    construct. Given a stage or an iterable, each constructs exactly one
    descriptor of its class after what [to_stage] left, carrying [f],
    [workers], [maxsize] and the hooks as given, with the stage [to_stage]
    answered as its only dependency, and returns it. A stage argument is
    that dependency and nothing else is constructed; an iterable is first
    wrapped as a source stage, which keeps 1 worker and maxsize 0 whatever
    the builder was given. *)
Theorem stage_builders_result (f : callable) (obj : value) (w m : Z)
    (s dn : option callable) (st : state) :
  stage_like obj = true →
  ∃ d st1,
    api.to_stage obj st = (Ok d, st1)
    ∧ (∀ r, obj = VStage r → d = r ∧ st1 = st)
    ∧ (isinstance_Stage obj = false →
       d = length (heap st)
       ∧ st1 = {| heap := heap st ++ [source_descriptor obj Thread];
                  log := log st |})
    ∧ api.map f obj w m s dn st
      = (Ok (RStage (length (heap st1))),
         {| heap := heap st1 ++ [stage_descriptor Map f w m s dn d];
            log := log st |})
    ∧ api.flat_map f obj w m s dn st
      = (Ok (RStage (length (heap st1))),
         {| heap := heap st1 ++ [stage_descriptor FlatMap f w m s dn d];
            log := log st |})
    ∧ api.filter f obj w m s dn st
      = (Ok (RStage (length (heap st1))),
         {| heap := heap st1 ++ [stage_descriptor Filter f w m s dn d];
            log := log st |})
    ∧ ∀ Stage_iter,
        api.each Stage_iter f obj w m s dn false st
        = (Ok (RStage (length (heap st1))),
           {| heap := heap st1 ++ [stage_descriptor Each f w m s dn d];
              log := log st |}).
Proof.
  intros Hobj. pose proof (stage_like_defined obj Hobj) as Hu.
  destruct (to_stage_cases obj st) as [(r & -> & Hto)|[(Hs & Hi & Hto)|[Hbad _]]];
    [| |congruence].
  - exists r, st. split; [done|]. split; [by intros ? [= ->]|].
    split; [done|].
    rewrite (map_after_to_stage f _ w m s dn st r st Hu Hto).
    rewrite (flat_map_after_to_stage f _ w m s dn st r st Hu Hto).
    rewrite (filter_after_to_stage f _ w m s dn st r st Hu Hto).
    repeat split; try done; intros Stage_iter;
      by rewrite (each_after_to_stage Stage_iter f _ w m s dn false st r st Hu Hto).
  - eexists _, _. split; [exact Hto|]. split; [by intros r ->|].
    split; [done|].
    rewrite (map_after_to_stage f _ w m s dn st _ _ Hu Hto).
    rewrite (flat_map_after_to_stage f _ w m s dn st _ _ Hu Hto).
    rewrite (filter_after_to_stage f _ w m s dn st _ _ Hu Hto).
    repeat split; try done; intros Stage_iter;
      by rewrite (each_after_to_stage Stage_iter f _ w m s dn false st _ _ Hu Hto).
Qed.

Lemma stage_builders_result_witness :
  api.map add1 range10 3 4 None None empty_state
  = (Ok (RStage 1),
     {| heap := [source_descriptor range10 Thread;
                 stage_descriptor Map add1 3 4 None None 0];
        log := [] |})
  ∧ api.filter gt3 (VStage 0) 3 4 None None one_source
    = (Ok (RStage 1),
       {| heap := [source_descriptor range10 Thread;
                   stage_descriptor Filter gt3 3 4 None None 0];
          log := [] |}).
Proof.
  split.
  - destruct (stage_builders_result add1 range10 3 4 None None empty_state)
      as (d & st1 & _ & _ & Hit & Hmap & _); [done|].
    destruct Hit as [-> ->]; [done|]. exact Hmap.
  - destruct (stage_builders_result gt3 (VStage 0) 3 4 None None one_source)
      as (d & st1 & _ & Hst & _ & _ & _ & Hfilter & _); [done|].
    destruct (Hst 0 eq_refl) as [-> ->]. exact Hfilter.
Defined.

(** X9: a built stage behaves as its builder says. The stage [map] returns
    puts [f(x)] on every output queue for every item [x] on which [f]
    returns; the stage [each] returns calls [f] and puts nothing. *)
Theorem map_and_each_stages_apply_f (Stage_iter : ref → list value * option exn)
    (f : callable) (obj : value) (w m : Z) (s dn : option callable) (st : state) :
  stage_like obj = true →
  (∃ r self st',
     api.map f obj w m s dn st = (Ok (RStage r), st')
     ∧ heap st' !! r = Some self
     ∧ ∀ x kw y qs n, f x kw = Ok y →
         methods.apply Stage_iter self x kw (queues qs n)
         = (Ok tt, queues (pushed [y] qs) n))
  ∧ (∃ r self st',
       api.each Stage_iter f obj w m s dn false st = (Ok (RStage r), st')
       ∧ heap st' !! r = Some self
       ∧ ∀ x kw y qs n, f x kw = Ok y →
           methods.apply Stage_iter self x kw (queues qs n) = (Ok tt, queues qs n)).
Proof.
  intros Hobj. pose proof (stage_like_defined obj Hobj) as Hu.
  assert (∃ d st1, api.to_stage obj st = (Ok d, st1)) as (d & st1 & Hto).
  { destruct (to_stage_cases obj st) as [(r & -> & Hto)|[(_ & _ & Hto)|[Hbad _]]];
      [by eexists _, _|by eexists _, _|congruence]. }
  split.
  - eexists _, _, _. split; [by apply map_after_to_stage|]. split.
    + simpl. by rewrite lookup_app_r, Nat.sub_diag.
    + intros x kw y qs n Hx. unfold methods.apply. simpl.
      by apply Map_apply_value with f.
  - eexists _, _, _.
    split; [by apply (each_after_to_stage Stage_iter f obj w m s dn false)|].
    split.
    + simpl. by rewrite lookup_app_r, Nat.sub_diag.
    + intros x kw y qs n Hx. unfold methods.apply, methods.Each_apply, call. simpl.
      unfold mbind, M_bind, lift. by rewrite Hx.
Qed.

Lemma map_and_each_stages_apply_f_witness :
  ∃ r self st',
    api.map add1 range10 3 0 None None empty_state = (Ok (RStage r), st')
    ∧ heap st' !! r = Some self
    ∧ methods.apply no_items self (VInt 3) [] (queues [[]; [VInt 7]] 0)
      = (Ok tt, queues [[VInt 4]; [VInt 7; VInt 4]] 0).
Proof.
  destruct (map_and_each_stages_apply_f no_items add1 range10 3 0 None None
              empty_state) as [(r & self & st' & Hmap & Hr & Happly) _]; [done|].
  exists r, self, st'. split; [exact Hmap|]. split; [exact Hr|].
  by apply (Happly (VInt 3) [] (VInt 4)).
Defined.

(** ** The graph the builders leave *)

Lemma acyclic_snoc h s :
  acyclic h → Forall (λ d, d < length h) (Stage.dependencies s) →
  acyclic (h ++ [s]).
Proof.
  intros Hh Hs r s' Hr. apply lookup_app_Some in Hr as [Hr|[Hle Hr]].
  - by apply Hh.
  - apply list_lookup_singleton_Some in Hr as [Hr <-].
    by replace r with (length h) by lia.
Qed.

Lemma in_store_prefix h h' obj : h `prefix_of` h' → in_store h obj → in_store h' obj.
Proof.
  intros Hp. destruct obj; simpl; try done.
  apply prefix_length in Hp. lia.
Qed.

(** [to_stage] keeps the graph acyclic, and the stage it answers is in the
    store. *)
Lemma to_stage_acyclic obj st :
  acyclic (heap st) → in_store (heap st) obj →
  acyclic (heap (api.to_stage obj st).2)
  ∧ ∀ d, (api.to_stage obj st).1 = Ok d → d < length (heap (api.to_stage obj st).2).
Proof.
  intros Hh Hobj.
  destruct (to_stage_cases obj st) as [(r & -> & ->)|[(_ & _ & ->)|[_ ->]]]; simpl.
  - split; [done|]. by intros d [= <-].
  - split; [by apply acyclic_snoc|].
    intros d [= <-]. rewrite length_app. simpl. lia.
  - by split.
Qed.

Lemma list_comp_cons {A} (body : value → M state A) x xs st :
  list_comp (x :: xs) body st
  = match body x st with
    | (Ok y, st1) =>
      match list_comp xs body st1 with
      | (Ok ys, st2) => (Ok (y :: ys), st2)
      | (Raise e, st2) => (Raise e, st2)
      end
    | (Raise e, st1) => (Raise e, st1)
    end.
Proof.
  simpl. unfold mbind, M_bind, mret, M_ret.
  destruct (body x st) as [[y|e] st1]; [|done].
  by destruct (list_comp xs body st1) as [[ys|e] st2].
Qed.

Lemma list_comp_to_stage_acyclic l st :
  acyclic (heap st) → Forall (in_store (heap st)) l →
  acyclic (heap (list_comp l api.to_stage st).2)
  ∧ ∀ deps, (list_comp l api.to_stage st).1 = Ok deps →
      Forall (λ d, d < length (heap (list_comp l api.to_stage st).2)) deps.
Proof.
  revert st. induction l as [|obj l IH]; intros st Hh Hl.
  - simpl. split; [done|]. intros deps [= <-]. constructor.
  - apply Forall_cons in Hl as [Hobj Hl].
    destruct (to_stage_acyclic obj st Hh Hobj) as [Hh1 Hd].
    pose proof (grows_to_stage obj st) as Hp1.
    rewrite list_comp_cons.
    destruct (api.to_stage obj st) as [[d|e] st1]; simpl in *; [|by split].
    destruct (IH st1 Hh1) as [Hh2 Hds].
    { eapply Forall_impl; [exact Hl|]. intros o. by apply in_store_prefix. }
    pose proof (grows_list_comp l api.to_stage grows_to_stage st1) as Hp2.
    destruct (list_comp l api.to_stage st1) as [[ds|e] st2]; simpl in *; [|by split].
    split; [done|]. intros deps [= <-]. constructor; [|by apply Hds].
    specialize (Hd d eq_refl). apply prefix_length in Hp2. lia.
Qed.

(** X10: the builders keep the graph acyclic. If every stage of the store
    depends only on stages constructed before it, the same holds after
    [from_iterable], [map], [flat_map], [filter], [each] (with any [run]
    flag), [concat] and [run] on a list, whatever they are given and whether
    they return or raise, as long as the stage objects handed to them are
    objects of the store: no builder creates a cycle or a dangling
    dependency. *)
Theorem builders_keep_the_graph_acyclic (Stage_iter : ref → list value * option exn)
    (st : state) :
  acyclic (heap st) →
  (∀ obj maxsize wc, acyclic (heap (api.from_iterable obj maxsize wc st).2))
  ∧ (∀ f obj w m s dn,
       in_store (heap st) obj →
       acyclic (heap (api.map f obj w m s dn st).2)
       ∧ acyclic (heap (api.flat_map f obj w m s dn st).2)
       ∧ acyclic (heap (api.filter f obj w m s dn st).2)
       ∧ ∀ run, acyclic (heap (api.each Stage_iter f obj w m s dn run st).2))
  ∧ (∀ stages maxsize,
       Forall (in_store (heap st)) (api.iterate Stage_iter stages).1 →
       acyclic (heap (api.concat Stage_iter stages maxsize st).2))
  ∧ (∀ l maxsize,
       Forall (in_store (heap st)) l →
       acyclic (heap (api.run Stage_iter (VList l) maxsize st).2)).
Proof.
  intros Hh.
  assert (∀ stages maxsize,
            Forall (in_store (heap st)) (api.iterate Stage_iter stages).1 →
            acyclic (heap (api.concat Stage_iter stages maxsize st).2)) as Hconcat.
  { intros stages maxsize Hl. unfold api.concat.
    assert (∀ st0 : state, heap st0 = heap st →
              acyclic (heap ((list_comp (api.iterate Stage_iter stages).1 api.to_stage
                                ≫= λ stages',
                                raise_opt (api.iterate Stage_iter stages).2
                                ≫= λ _, alloc (concat_descriptor maxsize stages'))
                               st0).2)) as Hrest.
    { intros st0 Hst0. unfold mbind, M_bind.
      destruct (list_comp_to_stage_acyclic (api.iterate Stage_iter stages).1 st0)
        as [Hh1 Hds]; [by rewrite Hst0|by rewrite Hst0|].
      destruct (list_comp (api.iterate Stage_iter stages).1 api.to_stage st0)
        as [[deps|e] st1]; simpl in *; [|done].
      destruct (api.iterate Stage_iter stages).2; simpl; [done|].
      apply acyclic_snoc; [done|]. by apply Hds. }
    unfold mbind at 1, M_bind at 1.
    destruct stages; simpl; try apply Hrest; done. }
  split; [|split; [|split]].
  - intros obj maxsize wc. unfold api.from_iterable.
    destruct (is_undefined obj); simpl; [done|]. by apply acyclic_snoc.
  - intros f obj w m s dn Hobj.
    destruct (to_stage_acyclic obj st Hh Hobj) as [Hh1 Hd].
    destruct (is_undefined obj) eqn:Hu.
    { unfold api.map, api.flat_map, api.filter, api.each. by rewrite Hu. }
    destruct (api.to_stage obj st) as [[d|e] st1] eqn:Hto; simpl in *.
    + specialize (Hd d eq_refl).
      rewrite (map_after_to_stage f obj w m s dn st d st1 Hu Hto).
      rewrite (flat_map_after_to_stage f obj w m s dn st d st1 Hu Hto).
      rewrite (filter_after_to_stage f obj w m s dn st d st1 Hu Hto).
      repeat split; try (apply acyclic_snoc; [done|by constructor]).
      intros run.
      rewrite (each_after_to_stage Stage_iter f obj w m s dn run st d st1 Hu Hto).
      apply acyclic_snoc; [done|by constructor].
    + unfold api.map, api.flat_map, api.filter, api.each. rewrite Hu.
      unfold mbind, M_bind. rewrite Hto. by repeat split.
  - exact Hconcat.
  - intros l maxsize Hl. unfold api.run.
    destruct l as [|o l]; [done|].
    replace (isinstance_list (VList (o :: l))
             && bool_decide (len (VList (o :: l)) = Some 0%nat)) with false by done.
    simpl isinstance_list. cbv iota.
    specialize (Hconcat (VList (o :: l)) maxsize Hl).
    unfold mbind, M_bind.
    destruct (api.concat Stage_iter (VList (o :: l)) maxsize st) as [[r|e] st1];
      simpl in *; [|done].
    unfold api.py_for. simpl. unfold_monad. by rewrite for_each_skip.
Qed.

Lemma builders_keep_the_graph_acyclic_witness :
  acyclic (heap (api.filter gt3 (VStage 0) 3 0 None None one_source).2)
  ∧ acyclic (heap (api.concat no_items (VList [VStage 0; range10; VInt 5]) 0
                     one_source).2).
Proof.
  assert (acyclic (heap one_source)) as Hone.
  { intros [|r] s; [|done]. intros [= <-]. constructor. }
  destruct (builders_keep_the_graph_acyclic no_items one_source Hone)
    as (_ & Hbuild & Hconcat & _).
  split.
  - apply (Hbuild gt3 (VStage 0) 3%Z 0%Z None None). simpl. lia.
  - apply Hconcat. simpl. repeat constructor.
Defined.

(** ** Running *)

(** X11: [each] with [run=True] builds exactly what [each] without [run]
    builds and then drains the new stage, once. Given a stage or an
    iterable, it constructs the same descriptors, starts exactly one drain,
    that of the [Each] stage it has just constructed, and returns [None]
    when the drain ends normally; when the drain fails it raises that
    failure, the descriptors staying constructed. *)
Theorem each_with_run_builds_then_drains (Stage_iter : ref → list value * option exn)
    (f : callable) (obj : value) (w m : Z) (s dn : option callable) (st : state) :
  stage_like obj = true →
  ∃ r st1,
    api.each Stage_iter f obj w m s dn false st = (Ok (RStage r), st1)
    ∧ log st1 = log st
    ∧ api.each Stage_iter f obj w m s dn true st
      = (match (Stage_iter r).2 with
         | None => Ok RNone
         | Some e => Raise e
         end,
         {| heap := heap st1; log := log st ++ [Drain r] |}).
Proof.
  intros Hobj. pose proof (stage_like_defined obj Hobj) as Hu.
  assert (∃ d st0, api.to_stage obj st = (Ok d, st0) ∧ log st0 = log st)
    as (d & st0 & Hto & Hlog).
  { destruct (to_stage_cases obj st) as [(r & -> & Hto)|[(_ & _ & Hto)|[Hbad _]]];
      [by eexists _, _|by eexists _, _|congruence]. }
  eexists _, _.
  rewrite (each_after_to_stage Stage_iter f obj w m s dn false st d st0 Hu Hto).
  rewrite (each_after_to_stage Stage_iter f obj w m s dn true st d st0 Hu Hto).
  split; [done|]. split; [done|]. simpl. by rewrite Hlog.
Qed.

Lemma each_with_run_builds_then_drains_witness :
  ∃ r st1,
    api.each stage_1_fails add1 range10 3 0 None None false empty_state
    = (Ok (RStage r), st1)
    ∧ log st1 = []
    ∧ api.each stage_1_fails add1 range10 3 0 None None true empty_state
      = (Raise (UserError 5), {| heap := heap st1; log := [Drain 1] |}).
Proof.
  destruct (each_with_run_builds_then_drains stage_1_fails add1 range10 3 0
              None None empty_state) as (r & st1 & Hfalse & Hlog & Htrue); [done|].
  exists r, st1. split; [exact Hfalse|]. split; [exact Hlog|].
  rewrite Htrue. vm_compute in Hfalse. by injection Hfalse as <- <-.
Defined.

(** X12: [run] on a single object that is not a list. A stage is drained,
    once, with nothing constructed: [run] returns [None] when the drain ends
    normally and raises its failure otherwise. Any other object, also a
    tuple or a generator of stages, makes [run] raise before any drain and
    with the store untouched: [AttributeError] from the call of its
    [to_iterable], or [TypeError] from the loop for [UNDEFINED]. *)
Theorem run_of_a_single_object (Stage_iter : ref → list value * option exn)
    (obj : value) (maxsize : Z) (st : state) :
  isinstance_list obj = false →
  api.run Stage_iter obj maxsize st
  = match obj with
    | VStage r =>
        (match (Stage_iter r).2 with
         | None => Ok RNone
         | Some e => Raise e
         end,
         {| heap := heap st; log := log st ++ [Drain r] |})
    | VUndefined => (Raise TypeError, st)
    | _ => (Raise AttributeError, st)
    end.
Proof.
  intros Hl. destruct obj; try discriminate; try reflexivity.
  unfold api.run, api.py_for. simpl. unfold_monad. simpl.
  rewrite for_each_skip. by destruct (Stage_iter r).2.
Qed.

Lemma run_of_a_single_object_witness :
  api.run stage_1_fails (VStage 1) 0 one_source
  = (Raise (UserError 5),
     {| heap := [source_descriptor range10 Thread]; log := [Drain 1] |})
  ∧ api.run no_items (VSeq [VStage 0]) 0 one_source = (Raise AttributeError, one_source).
Proof.
  split.
  - by rewrite (run_of_a_single_object stage_1_fails (VStage 1) 0 one_source).
  - by rewrite (run_of_a_single_object no_items (VSeq [VStage 0]) 0 one_source).
Defined.

(** X13: building a graph never runs it. Whatever they are given, and
    whether they return or raise, [from_iterable], [to_stage], [map],
    [flat_map], [filter], [each] without [run], [to_iterable], a [Partial]
    applied to any object, [concat] on a list and [run] on a list start no
    drain. *)
Theorem building_never_drains (Stage_iter : ref → list value * option exn)
    (f : callable) (obj : value) (w m : Z) (s dn : option callable)
    (mo : option Z) (wc : worker_constructor_t) (p : partial) (l : list value)
    (st : state) :
  log (api.from_iterable obj mo wc st).2 = log st
  ∧ log (api.to_stage obj st).2 = log st
  ∧ log (api.map f obj w m s dn st).2 = log st
  ∧ log (api.flat_map f obj w m s dn st).2 = log st
  ∧ log (api.filter f obj w m s dn st).2 = log st
  ∧ log (api.each Stage_iter f obj w m s dn false st).2 = log st
  ∧ log (api.to_iterable obj m st).2 = log st
  ∧ log (api.Partial_call Stage_iter p obj st).2 = log st
  ∧ log (api.concat Stage_iter (VList l) m st).2 = log st
  ∧ log (api.run Stage_iter (VList l) m st).2 = log st.
Proof.
  assert (∀ o k, quiet (api.to_iterable o k)) as Hiter.
  { intros o k st0. by destruct o. }
  assert (quiet (api.concat Stage_iter (VList l) m)) as Hconcat.
  { unfold api.concat. simpl.
    apply quiet_bind; [apply quiet_ret|intros _].
    apply quiet_bind; [apply quiet_list_comp, quiet_to_stage|intros deps].
    apply quiet_bind; [apply quiet_ret|intros _]. apply quiet_alloc. }
  repeat split.
  - apply quiet_from_iterable.
  - apply quiet_to_stage.
  - apply quiet_map.
  - apply quiet_flat_map.
  - apply quiet_filter.
  - apply quiet_each.
  - apply Hiter.
  - destruct p; simpl.
    + apply quiet_from_iterable.
    + apply quiet_map.
    + apply quiet_flat_map.
    + apply quiet_filter.
    + apply quiet_each.
    + apply Hiter.
  - apply Hconcat.
  - unfold api.run.
    destruct (isinstance_list (VList l) && bool_decide (len (VList l) = Some 0%nat));
      [done|].
    simpl isinstance_list. cbv iota.
    apply quiet_bind.
    { apply quiet_bind; [exact Hconcat|intros r; apply quiet_ret]. }
    intros stage. apply quiet_bind; [apply Hiter|intros _].
    apply quiet_bind; [apply quiet_ret|intros _].
    apply quiet_bind; [|intros _; apply quiet_ret].
    unfold api.py_for. simpl.
    apply quiet_bind; [|intros _; apply quiet_ret].
    apply quiet_for_each. intros _. apply quiet_ret.
Qed.

(** X14: currying can be repeated. A [Partial] applied to [UNDEFINED]
    answers with an equal [Partial] and touches nothing: for all the six
    curried builders, leaving the stage out again changes nothing. *)
Theorem partial_of_undefined_is_itself (Stage_iter : ref → list value * option exn)
    (p : partial) (st : state) :
  api.Partial_call Stage_iter p VUndefined st = (Ok (RPartial p), st).
Proof. by destruct p. Qed.

(** ** Failure inside [concat] *)


